(** * Embedding of the online TTS core of tera-guide-core

    Sources: [lib/onlineTTS.js] (class [OnlineTTS]) and the persistent
    audio player [AudioPlayer] (the worker-based revision).

    JavaScript strings are modelled as lists of UTF-16 code units ([list Z]);
    ASCII literals are written with [js "..."].  The numbers of the text
    normalization are doubles with an integer value, an infinity or [NaN].
    The voice map is a plain object with the properties it inherits from
    [Object.prototype]; the disk is a list of paths with their nodes; the
    synthesis endpoint's answer is an input of the request; the audio
    player is a state machine driven by the events of its caller, its
    worker processes and its idle timer. *)

From Stdlib Require Import ZArith QArith List Bool String Ascii Lia.
Import ListNotations.
Open Scope Z_scope.

(* ------------------------------------------------------------------ *)
(** ** JavaScript strings *)

Definition jsstr := list Z.

Fixpoint js (s : string) : jsstr :=
  match s with
  | EmptyString => []
  | String c r => Z.of_nat (nat_of_ascii c) :: js r
  end.

Definition jsstr_eqb (a b : jsstr) : bool :=
  if list_eq_dec Z.eq_dec a b then true else false.

Definition is_digit (c : Z) : bool := (48 <=? c) && (c <=? 57).
Definition is_upper (c : Z) : bool := (65 <=? c) && (c <=? 90).
Definition is_lower (c : Z) : bool := (97 <=? c) && (c <=? 122).
Definition is_alpha (c : Z) : bool := is_upper c || is_lower c.

(** [\w] without the unicode flag. *)
Definition is_word (c : Z) : bool := is_alpha c || is_digit c || (c =? 95).

(** [\s] and the white space removed by [String.prototype.trim]. *)
Definition is_space (c : Z) : bool :=
  ((9 <=? c) && (c <=? 13)) || (c =? 32) || (c =? 160) || (c =? 5760) ||
  ((8192 <=? c) && (c <=? 8202)) || (c =? 8232) || (c =? 8233) ||
  (c =? 8239) || (c =? 8287) || (c =? 12288) || (c =? 65279).

(** Case canonicalisation of the [i] flag (ASCII letters). *)
Definition canon (c : Z) : Z := if is_lower c then c - 32 else c.

(* ------------------------------------------------------------------ *)
(** ** A backtracking matcher for the JavaScript regular expressions
    used by the source (no lookaround, no back references). *)

Inductive regex :=
  | RLit (c : Z)                    (* a literal character *)
  | RClass (neg : bool) (p : Z -> bool)  (* [..] or [^..], \d, \s, . *)
  | RSeq (a b : regex)
  | RAlt (a b : regex)
  | RStar (a : regex)               (* greedy a* *)
  | RGroup (n : nat) (a : regex)    (* capturing group n *)
  | RWordB                          (* \b *)
  | RBol                            (* ^ *)
  | REol                            (* $ *)
  | REmpty.                         (* the empty pattern *)

Definition RPlus (a : regex) : regex := RSeq a (RStar a).

Fixpoint RStr (s : string) : regex :=
  match s with
  | EmptyString => REmpty
  | String c EmptyString => RLit (Z.of_nat (nat_of_ascii c))
  | String c r => RSeq (RLit (Z.of_nat (nat_of_ascii c))) (RStr r)
  end.

Definition RDigit := RClass false is_digit.
Definition RSpace := RClass false is_space.
Definition RChars (l : list Z) := RClass false (fun c => existsb (Z.eqb c) l).
Definition RNotChars (l : list Z) := RClass true (fun c => existsb (Z.eqb c) l).

Definition captures := list (nat * (nat * nat)).

Definition matcher := nat -> captures ->
  (nat -> captures -> option (nat * captures)) -> option (nat * captures).

(** Greedy iteration: try one more iteration of [m] (refusing an empty one,
    as the RepeatMatcher of the ECMAScript specification does), and fall back
    on the continuation. *)
Fixpoint star_loop (m : matcher) (k : nat -> captures -> option (nat * captures))
         (fuel i : nat) (cs : captures) : option (nat * captures) :=
  match fuel with
  | O => k i cs
  | S f =>
      match m i cs (fun j cs' => if Nat.eqb j i then None else star_loop m k f j cs') with
      | Some x => Some x
      | None => k i cs
      end
  end.

Section Matcher.
Variable inp : jsstr.
Variable icase : bool.

Definition char_eq (a b : Z) : bool :=
  if icase then canon a =? canon b else a =? b.

Definition class_mem (p : Z -> bool) (c : Z) : bool :=
  if icase then p c || p (canon c) || (is_upper c && p (c + 32)) else p c.

Definition word_at (i : nat) : bool :=
  match nth_error inp i with Some c => is_word c | None => false end.

Definition word_before (i : nat) : bool :=
  match i with O => false | S j => word_at j end.

Fixpoint mt (r : regex) (i : nat) (cs : captures)
         (k : nat -> captures -> option (nat * captures))
         : option (nat * captures) :=
  match r with
  | RLit c =>
      match nth_error inp i with
      | Some d => if char_eq c d then k (S i) cs else None
      | None => None
      end
  | RClass neg p =>
      match nth_error inp i with
      | Some d => if xorb neg (class_mem p d) then k (S i) cs else None
      | None => None
      end
  | RSeq a b => mt a i cs (fun j cs' => mt b j cs' k)
  | RAlt a b =>
      match mt a i cs k with
      | Some x => Some x
      | None => mt b i cs k
      end
  | RStar a => star_loop (mt a) k (S (List.length inp - i)) i cs
  | RGroup n a => mt a i cs (fun j cs' => k j ((n, (i, j)) :: cs'))
  | RWordB => if xorb (word_before i) (word_at i) then k i cs else None
  | RBol => if Nat.eqb i 0 then k i cs else None
  | REol => if Nat.eqb i (List.length inp) then k i cs else None
  | REmpty => k i cs
  end.

(** A match of [r] starting exactly at [i]. *)
Definition match_at (r : regex) (i : nat) : option (nat * captures) :=
  mt r i [] (fun j cs => Some (j, cs)).

(** [RegExpBuiltinExec]: the first match starting at or after [i]. *)
Fixpoint exec_from (r : regex) (fuel i : nat) : option (nat * nat * captures) :=
  match fuel with
  | O => None
  | S f =>
      match match_at r i with
      | Some (j, cs) => Some (i, j, cs)
      | None => exec_from r f (S i)
      end
  end.
End Matcher.

Definition substr (s : jsstr) (i j : nat) : jsstr := firstn (j - i) (skipn i s).

(** The last [n] characters of [s] ([s.slice(-n)]). *)
Definition lastn_of (s : jsstr) (n : nat) : jsstr := skipn (List.length s - n) s.

(** The text of capturing group [n] ([undefined] is rendered as the empty
    string: every group of the source's patterns takes part in each match). *)
Definition group (s : jsstr) (cs : captures) (n : nat) : jsstr :=
  match find (fun e => Nat.eqb (fst e) n) cs with
  | Some (_, (a, b)) => substr s a b
  | None => []
  end.

(** A replacer receives the whole match and the group accessor. *)
Definition replacer := jsstr -> (nat -> jsstr) -> jsstr.

(** [String.prototype.replace] with a global regular expression. *)
Fixpoint replace_all_from (s : jsstr) (ic : bool) (r : regex) (f : replacer)
         (fuel last : nat) : jsstr :=
  match fuel with
  | O => skipn last s
  | S fu =>
      match exec_from s ic r (S (List.length s - last)) last with
      | None => skipn last s
      | Some (a, b, cs) =>
          substr s last a ++ f (substr s a b) (group s cs) ++
          (if Nat.eqb a b
           then firstn 1 (skipn b s) ++ replace_all_from s ic r f fu (S b)
           else replace_all_from s ic r f fu b)
      end
  end.

Definition replace_g (ic : bool) (r : regex) (f : replacer) (s : jsstr) : jsstr :=
  replace_all_from s ic r f (S (List.length s)) 0.

(** A replacer that may throw: [None] is the exception. *)
Definition replacer_exn := jsstr -> (nat -> jsstr) -> option jsstr.

(** [String.prototype.replace] with a global regular expression and a
    replacer that may throw: the first exception ends the call. *)
Fixpoint replace_all_from_exn (s : jsstr) (ic : bool) (r : regex) (f : replacer_exn)
         (fuel last : nat) : option jsstr :=
  match fuel with
  | O => Some (skipn last s)
  | S fu =>
      match exec_from s ic r (S (List.length s - last)) last with
      | None => Some (skipn last s)
      | Some (a, b, cs) =>
          match f (substr s a b) (group s cs) with
          | None => None
          | Some t =>
              match (if Nat.eqb a b then replace_all_from_exn s ic r f fu (S b)
                     else replace_all_from_exn s ic r f fu b) with
              | None => None
              | Some rest =>
                  Some (substr s last a ++ t ++
                        (if Nat.eqb a b then firstn 1 (skipn b s) ++ rest else rest))
              end
          end
      end
  end.

Definition replace_g_exn (ic : bool) (r : regex) (f : replacer_exn) (s : jsstr)
    : option jsstr :=
  replace_all_from_exn s ic r f (S (List.length s)) 0.

(** [String.prototype.replace] with a non-global regular expression. *)
Definition replace_first (ic : bool) (r : regex) (f : replacer) (s : jsstr) : jsstr :=
  match exec_from s ic r (S (List.length s)) 0 with
  | None => s
  | Some (a, b, cs) => firstn a s ++ f (substr s a b) (group s cs) ++ skipn b s
  end.

(** [RegExp.prototype.test] *)
Definition re_test (r : regex) (s : jsstr) : bool :=
  match exec_from s false r (S (List.length s)) 0 with Some _ => true | None => false end.

Definition const_rep (t : jsstr) : replacer := fun _ _ => t.

(** A pattern that can only match by reading a character satisfying [P]
    (under the case flag [ic]). *)
Definition digit_P (d : Z) : Prop := is_digit d = true.

Inductive needs (ic : bool) (P : Z -> Prop) : regex -> Prop :=
  | needs_lit c : (forall d, char_eq ic c d = true -> P d) -> needs ic P (RLit c)
  | needs_class p : (forall d, class_mem ic p d = true -> P d) -> needs ic P (RClass false p)
  | needs_seq_l a b : needs ic P a -> needs ic P (RSeq a b)
  | needs_seq_r a b : needs ic P b -> needs ic P (RSeq a b)
  | needs_alt a b : needs ic P a -> needs ic P b -> needs ic P (RAlt a b)
  | needs_group n a : needs ic P a -> needs ic P (RGroup n a).

(** [s.indexOf(t)] *)
Fixpoint index_of_aux (s t : jsstr) (i : Z) : Z :=
  match s with
  | [] => if jsstr_eqb t [] then i else -1
  | _ :: r => if jsstr_eqb (firstn (List.length t) s) t then i else index_of_aux r t (i + 1)
  end.
Definition index_of (s t : jsstr) : Z := index_of_aux s t 0.

(** [s.substring(start)] *)
Definition substring_from (s : jsstr) (start : Z) : jsstr :=
  skipn (Z.to_nat (Z.max 0 start)) s.

(* ------------------------------------------------------------------ *)
(** ** Numbers *)

(** The value of a string of decimal digits. *)
Definition digits_value (s : jsstr) : Z :=
  fold_left (fun acc c => acc * 10 + (c - 48)) s 0.

Fixpoint digits_aux (fuel : nat) (n : Z) (acc : jsstr) : jsstr :=
  match fuel with
  | O => acc
  | S f => if n <? 10 then (48 + n) :: acc
           else digits_aux f (n / 10) ((48 + n mod 10) :: acc)
  end.

(** The decimal numeral of an integer. *)
Definition Z_toString (n : Z) : jsstr :=
  if n <? 0 then 45 :: digits_aux (Z.to_nat (Z.log2 (- n)) + 1) (- n) []
  else digits_aux (Z.to_nat (Z.log2 n) + 1) n [].

(** A JavaScript number whose value is an integer or not a number, the
    numbers [parseInt] returns: a finite double, written as the integer it
    equals ([-0] merged with [0]), an infinity or [NaN]. *)
Inductive jsint := JFin (z : Z) | JPosInf | JNegInf | JNaN.

(** The double nearest to a non-negative integer (53-bit significand,
    ties to even); [Infinity] past the largest finite double. *)
Definition round_double (n : Z) : jsint :=
  if n <? 2 ^ 53 then JFin n
  else
    let e := Z.log2 n - 52 in
    let m := Z.shiftr n e in
    let r := n - Z.shiftl m e in
    let half := 2 ^ (e - 1) in
    let m' := if (half <? r) || ((r =? half) && Z.odd m) then m + 1 else m in
    let v := Z.shiftl m' e in
    if 2 ^ 1024 <=? v then JPosInf else JFin v.

(** Unary minus. *)
Definition num_neg (x : jsint) : jsint :=
  match x with
  | JFin z => JFin (- z) | JPosInf => JNegInf | JNegInf => JPosInf | JNaN => JNaN
  end.

(** The double nearest to an integer. *)
Definition num_of_Z (z : Z) : jsint :=
  if z <? 0 then num_neg (round_double (- z)) else round_double z.

(** White space and line terminators skipped by [parseInt]. *)
Fixpoint trim_start (s : jsstr) : jsstr :=
  match s with
  | c :: r => if is_space c then trim_start r else s
  | [] => []
  end.

(** The value of a digit character in bases up to 36. *)
Definition digit_val (c : Z) : option Z :=
  if is_digit c then Some (c - 48)
  else if is_lower c then Some (c - 87)
  else if is_upper c then Some (c - 55)
  else None.

(** The values of the longest prefix of digits of base [radix]. *)
Fixpoint digit_prefix (radix : Z) (s : jsstr) : list Z :=
  match s with
  | c :: r =>
      match digit_val c with
      | Some d => if d <? radix then d :: digit_prefix radix r else []
      | None => []
      end
  | [] => []
  end.

(** [parseInt(string)] with no radix (ECMAScript, sec. 19.2.5): leading
    white space and one sign are skipped, a [0x] or [0X] prefix selects base
    16, and the longest prefix of digits is read and rounded to the nearest
    double (the engine's conversion is correctly rounded); [NaN] when there
    is no digit. *)
Definition parseInt (s : jsstr) : jsint :=
  let s := trim_start s in
  let '(neg, s) := match s with
                   | c :: r => if c =? 45 then (true, r)
                               else if c =? 43 then (false, r) else (false, s)
                   | [] => (false, s)
                   end in
  let '(radix, s) := match s with
                     | c :: x :: r =>
                         if (c =? 48) && ((x =? 120) || (x =? 88)) then (16, r) else (10, s)
                     | _ => (10, s)
                     end in
  match digit_prefix radix s with
  | [] => JNaN
  | ds =>
      let v := round_double (fold_left (fun acc d => acc * radix + d) ds 0) in
      if neg then num_neg v else v
  end.

Definition jsint_eqb (a b : jsint) : bool :=
  match a, b with
  | JFin x, JFin y => x =? y
  | JPosInf, JPosInf | JNegInf, JNegInf | JNaN, JNaN => true
  | _, _ => false
  end.

(** The two multiples of [10^(n-k)] around [x] (a positive integer of [n]
    digits), that is the values with [k] significant digits next to [x]:
    the one that rounds to [x] and is closest to it, the one with an even
    significand on a tie. *)
Definition shortest_at (x n k : Z) : option Z :=
  let u := 10 ^ (n - k) in
  let s := x / u in
  let lo := s * u in
  let hi := (s + 1) * u in
  let ok v := jsint_eqb (round_double v) (JFin x) in
  match ok lo, ok hi with
  | true, true =>
      if (x - lo <? hi - x) || ((x - lo =? hi - x) && Z.even s) then Some lo else Some hi
  | true, false => Some lo
  | false, true => Some hi
  | false, false => None
  end.

Fixpoint shortest_from (x n : Z) (ks : list Z) : option Z :=
  match ks with
  | [] => None
  | k :: r => match shortest_at x n k with Some v => Some v | None => shortest_from x n r end
  end.

(** The value [s * 10^(n-k)] of [Number::toString] (ECMAScript,
    sec. 6.1.6.1.20) for a positive integer double [x]: [k] as small as
    possible.  A value with a fractional part is never shorter than the
    digits of the integer [x], and the one with [k] equal to the number of
    digits of [x] is [x] itself, so the search ends there. *)
Definition shortest_value (x : Z) : Z :=
  let n := Z.of_nat (List.length (Z_toString x)) in
  match shortest_from x n (map Z.of_nat (seq 1 (Z.to_nat n))) with
  | Some v => v
  | None => x
  end.

Fixpoint strip_zeros_rev (s : jsstr) : jsstr :=
  match s with
  | 48 :: r => strip_zeros_rev r
  | _ => s
  end.

(** [Number::toString] of a positive integer double: its digits followed
    by zeros below [10^21], the exponent form [d.ddde+N] from there on. *)
Definition pos_toString (x : Z) : jsstr :=
  let v := shortest_value x in
  let ds := Z_toString v in
  if v <? 10 ^ 21 then ds
  else
    let sig := rev (strip_zeros_rev (rev ds)) in
    match sig with
    | d :: rest =>
        d :: (match rest with [] => [] | _ => 46 :: rest end) ++
        js "e+" ++ Z_toString (Z.of_nat (List.length ds) - 1)
    | [] => ds
    end.

(** [Number::toString] of a number of [jsint]. *)
Definition number_toString (x : jsint) : jsstr :=
  match x with
  | JNaN => js "NaN"
  | JPosInf => js "Infinity"
  | JNegInf => js "-Infinity"
  | JFin z =>
      if z =? 0 then js "0"
      else if z <? 0 then 45 :: pos_toString (- z)
      else pos_toString z
  end.

(** The double nearest to the positive rational [p / q] in the normal
    range: a 53-bit significand [m] and an exponent [e] with value
    [m * 2^e]. *)
Definition scaled_div (p q e : Z) : Z * Z :=
  if 0 <=? e then (p / (q * 2 ^ e), p mod (q * 2 ^ e))
  else (Z.shiftl p (- e) / q, Z.shiftl p (- e) mod q).

Definition div_double (p q : Z) : Z * Z :=
  let e0 := Z.log2 p - Z.log2 q - 52 in
  let e := if fst (scaled_div p q e0) <? 2 ^ 52 then e0 - 1 else e0 in
  let den := if 0 <=? e then q * 2 ^ e else q in
  let '(m, r) := scaled_div p q e in
  let m' := if (den <? 2 * r) || ((2 * r =? den) && Z.odd m) then m + 1 else m in
  (m', e).

(** [Math.floor(x / d)] for an integer double [x] and a positive integer
    [d]: the quotient is rounded to a double first. *)
Definition floor_div_double (x d : Z) : Z :=
  if x =? 0 then 0
  else if 0 <? x then
    let '(m, e) := div_double x d in
    if 0 <=? e then m * 2 ^ e else m / 2 ^ (- e)
  else
    let '(m, e) := div_double (- x) d in
    if 0 <=? e then - (m * 2 ^ e) else (- m) / 2 ^ (- e).

(** [Math.floor(x / d)] *)
Definition Math_floor_div (x : jsint) (d : Z) : jsint :=
  match x with JFin z => JFin (floor_div_double z d) | _ => x end.

(** [x * c] for a positive integer [c]. *)
Definition num_mul (x : jsint) (c : Z) : jsint :=
  match x with JFin z => num_of_Z (z * c) | _ => x end.

(** [x % d] for a positive integer [d]: the sign of the dividend; [NaN]
    for an infinite or [NaN] dividend. *)
Definition num_rem (x : jsint) (d : Z) : jsint :=
  match x with JFin z => JFin (Z.rem z d) | _ => JNaN end.

(** [x === z], [x < z], [x <= z] and [x >= z] against an integer [z]:
    false for [NaN]. *)
Definition num_eqb (x : jsint) (z : Z) : bool :=
  match x with JFin y => y =? z | _ => false end.
Definition num_ltb (x : jsint) (z : Z) : bool :=
  match x with JFin y => y <? z | JNegInf => true | _ => false end.
Definition num_leb (x : jsint) (z : Z) : bool :=
  match x with JFin y => y <=? z | JNegInf => true | _ => false end.
Definition num_geb (x : jsint) (z : Z) : bool :=
  match x with JFin y => z <=? y | JPosInf => true | _ => false end.

(** A template substitution [${o}]: a missing table entry prints as
    [undefined]. *)
Definition tmpl (o : option jsstr) : jsstr :=
  match o with Some w => w | None => js "undefined" end.

Definition truthy_opt (o : option jsstr) : bool :=
  match o with Some (_ :: _) => true | _ => false end.

Module TextNormalizer.

Definition numberWords (n : Z) : option jsstr :=
  match n with
  | 0 => Some (js "zero") | 1 => Some (js "one") | 2 => Some (js "two")
  | 3 => Some (js "three") | 4 => Some (js "four") | 5 => Some (js "five")
  | 6 => Some (js "six") | 7 => Some (js "seven") | 8 => Some (js "eight")
  | 9 => Some (js "nine") | 10 => Some (js "ten") | 11 => Some (js "eleven")
  | 12 => Some (js "twelve") | 13 => Some (js "thirteen")
  | 14 => Some (js "fourteen") | 15 => Some (js "fifteen")
  | 16 => Some (js "sixteen") | 17 => Some (js "seventeen")
  | 18 => Some (js "eighteen") | 19 => Some (js "nineteen")
  | 20 => Some (js "twenty") | 30 => Some (js "thirty") | 40 => Some (js "forty")
  | 50 => Some (js "fifty") | 60 => Some (js "sixty") | 70 => Some (js "seventy")
  | 80 => Some (js "eighty") | 90 => Some (js "ninety")
  | _ => None
  end.

Definition ordinalWords (n : Z) : option jsstr :=
  match n with
  | 1 => Some (js "first") | 2 => Some (js "second") | 3 => Some (js "third")
  | 4 => Some (js "fourth") | 5 => Some (js "fifth") | 6 => Some (js "sixth")
  | 7 => Some (js "seventh") | 8 => Some (js "eighth") | 9 => Some (js "ninth")
  | 10 => Some (js "tenth") | 11 => Some (js "eleventh") | 12 => Some (js "twelfth")
  | 13 => Some (js "thirteenth") | 14 => Some (js "fourteenth")
  | 15 => Some (js "fifteenth") | 16 => Some (js "sixteenth")
  | 17 => Some (js "seventeenth") | 18 => Some (js "eighteenth")
  | 19 => Some (js "nineteenth") | 20 => Some (js "twentieth")
  | 30 => Some (js "thirtieth") | 40 => Some (js "fortieth")
  | 50 => Some (js "fiftieth") | 60 => Some (js "sixtieth")
  | 70 => Some (js "seventieth") | 80 => Some (js "eightieth")
  | 90 => Some (js "ninetieth") | 100 => Some (js "hundredth")
  | _ => None
  end.

(** The property [numberWords[x]] of a number [x]: its key is
    [ToString(x)], so [NaN] and the infinities read [undefined]. *)
Definition numberWords_at (x : jsint) : option jsstr :=
  match x with JFin z => numberWords z | _ => None end.
Definition ordinalWords_at (x : jsint) : option jsstr :=
  match x with JFin z => ordinalWords z | _ => None end.

Definition sp : jsstr := js " ".

Definition under100 (n : jsint) : jsstr :=
  if num_leb n 20 then tmpl (numberWords_at n)
  else
    let tens := num_mul (Math_floor_div n 10) 10 in
    let ones := num_rem n 10 in
    if num_eqb ones 0 then tmpl (numberWords_at tens)
    else tmpl (numberWords_at tens) ++ sp ++ tmpl (numberWords_at ones).

(** The argument of [convertNumber]: a captured digit string passed as it
    is, or the number [parseInt] made of it. *)
Inductive numarg := ArgStr (s : jsstr) | ArgNum (x : jsint).

(** [parseInt(num)]: a number is first converted by [ToString]. *)
Definition parseInt_arg (a : numarg) : jsint :=
  match a with ArgStr s => parseInt s | ArgNum x => parseInt (number_toString x) end.

Definition convertNumber (arg : numarg) : jsstr :=
  let num := parseInt_arg arg in
  if num_eqb num 0 then js "zero"
  else if num_ltb num 0 || num_geb num 10000 then number_toString num
  else if num_ltb num 100 then under100 num
  else if num_ltb num 1000 then
    let hundreds := Math_floor_div num 100 in
    let remainder := num_rem num 100 in
    if num_eqb remainder 0 then tmpl (numberWords_at hundreds) ++ js " hundred"
    else tmpl (numberWords_at hundreds) ++ js " hundred " ++ under100 remainder
  else
    let thousands := Math_floor_div num 1000 in
    let remainder := num_rem num 1000 in
    if num_eqb remainder 0 then tmpl (numberWords_at thousands) ++ js " thousand"
    else
      let hundreds := Math_floor_div remainder 100 in
      let tens := num_rem remainder 100 in
      if num_eqb hundreds 0 then
        tmpl (numberWords_at thousands) ++ js " thousand " ++ under100 tens
      else if num_eqb tens 0 then
        tmpl (numberWords_at thousands) ++ js " thousand " ++
        tmpl (numberWords_at hundreds) ++ js " hundred"
      else
        tmpl (numberWords_at thousands) ++ js " thousand " ++
        tmpl (numberWords_at hundreds) ++ js " hundred " ++ under100 tens.

(** [generateOrdinal]; [None] is the exception it raises.  On [NaN] (and
    on an infinity, whose remainder is [NaN]) it calls itself on
    [NaN % 1000], that is on [NaN] again, until the call stack overflows and
    a [RangeError] is thrown: [None] once the depth runs out.  On a finite
    number it recurses at most once, on a remainder below 1000, so a depth
    of two gives the result of any larger depth. *)
Fixpoint generateOrdinal_rec (depth : nat) (num : jsint) : option jsstr :=
  match depth with
  | O => None
  | S d =>
    let num := parseInt (number_toString num) in
    if truthy_opt (ordinalWords_at num) then Some (tmpl (ordinalWords_at num))
    else if num_ltb num 100 then
      let tens := num_mul (Math_floor_div num 10) 10 in
      let ones := num_rem num 10 in
      if num_eqb ones 0 then Some (tmpl (numberWords_at tens) ++ js "th")
      else Some (tmpl (numberWords_at tens) ++ sp ++ tmpl (ordinalWords_at ones))
    else if num_ltb num 1000 then
      let hundreds := Math_floor_div num 100 in
      let remainder := num_rem num 100 in
      if num_eqb remainder 0 then Some (tmpl (numberWords_at hundreds) ++ js " hundredth")
      else if truthy_opt (ordinalWords_at remainder) then
        Some (tmpl (numberWords_at hundreds) ++ js " hundred " ++
              tmpl (ordinalWords_at remainder))
      else
        let tens := num_mul (Math_floor_div remainder 10) 10 in
        let ones := num_rem remainder 10 in
        if num_eqb ones 0 then
          Some (tmpl (numberWords_at hundreds) ++ js " hundred " ++
                tmpl (numberWords_at tens) ++ js "th")
        else
          Some (tmpl (numberWords_at hundreds) ++ js " hundred " ++
                tmpl (numberWords_at tens) ++ sp ++ tmpl (ordinalWords_at ones))
    else
      let thousands := Math_floor_div num 1000 in
      let remainder := num_rem num 1000 in
      if num_eqb remainder 0 then Some (tmpl (numberWords_at thousands) ++ js " thousandth")
      else
        match generateOrdinal_rec d remainder with
        | Some o => Some (tmpl (numberWords_at thousands) ++ js " thousand " ++ o)
        | None => None
        end
  end.

Definition generateOrdinal (num : jsint) : option jsstr := generateOrdinal_rec 2 num.

Fixpoint RCat (l : list regex) : regex :=
  match l with [] => REmpty | [r] => r | r :: rs => RSeq r (RCat rs) end.

Definition RSuffix : regex :=
  RAlt (RStr "nd") (RAlt (RStr "rd") (RAlt (RStr "th") (RStr "st"))).

(** [[^\s,;:.!?]] *)
Definition RWordChar : regex :=
  RClass true (fun c => is_space c || existsb (Z.eqb c) (js ",;:.!?")).

(** [/Waves\s*\([^)]+\)\s*(\d+)(nd|rd|th|st)\s+fast/gi] *)
Definition re_waves : regex :=
  RCat [RStr "Waves"; RStar RSpace; RLit 40; RPlus (RNotChars [41]); RLit 41;
        RStar RSpace; RGroup 1 (RPlus RDigit); RGroup 2 RSuffix;
        RPlus RSpace; RStr "fast"].
(** [/\d+(nd|rd|th|st)/] *)
Definition re_ord_inner : regex := RSeq (RPlus RDigit) (RGroup 1 RSuffix).
(** [/\b(\d+)(nd|rd|th|st)\b/gi] *)
Definition re_ordinal : regex :=
  RCat [RWordB; RGroup 1 (RPlus RDigit); RGroup 2 RSuffix; RWordB].
(** [/\bx(\d+)\b/gi] *)
Definition re_xnum : regex := RCat [RWordB; RLit 120; RGroup 1 (RPlus RDigit); RWordB].
(** [/(\d+)%/g] *)
Definition re_percent : regex := RSeq (RGroup 1 (RPlus RDigit)) (RLit 37).
(** [/\b(\d+)\s*-\s*(\d+)\s*-\s*(\d+)\b/g] *)
Definition re_dash3 : regex :=
  RCat [RWordB; RGroup 1 (RPlus RDigit); RStar RSpace; RLit 45; RStar RSpace;
        RGroup 2 (RPlus RDigit); RStar RSpace; RLit 45; RStar RSpace;
        RGroup 3 (RPlus RDigit); RWordB].
(** [/\b(\d+)x(\d+)\b/g] *)
Definition re_nxn : regex :=
  RCat [RWordB; RGroup 1 (RPlus RDigit); RLit 120; RGroup 2 (RPlus RDigit); RWordB].
(** [/\b(\d+)x\s+([^\s,;:.!?]+(?:\s+[^\s,;:.!?]+)* )/g] *)
Definition re_nx_words : regex :=
  RCat [RWordB; RGroup 1 (RPlus RDigit); RLit 120; RPlus RSpace;
        RGroup 2 (RSeq (RPlus RWordChar) (RStar (RSeq (RPlus RSpace) (RPlus RWordChar))))].
(** [/\b(\d+)x([A-Za-z][^\s,;:.!?]* )/g] *)
Definition re_nx_word : regex :=
  RCat [RWordB; RGroup 1 (RPlus RDigit); RLit 120;
        RGroup 2 (RSeq (RClass false is_alpha) (RStar RWordChar))].
(** [/\b\d+\b/g] *)
Definition re_int : regex := RCat [RWordB; RPlus RDigit; RWordB].

(** The [replacements] table of [processNumberFormats]: flag [i], pattern,
    replacer ([None] when it throws). *)
Definition replacements : list (bool * regex * replacer_exn) :=
  [ (true, re_waves, fun m g =>
       match generateOrdinal (parseInt (g 1%nat)) with
       | Some o => Some (replace_first false re_ord_inner (const_rep o) m)
       | None => None
       end);
    (true, re_ordinal, fun _ g => generateOrdinal (parseInt (g 1%nat)));
    (true, re_xnum, fun _ g =>
       Some (js "times " ++ convertNumber (ArgNum (parseInt (g 1%nat)))));
    (false, re_percent, fun _ g =>
       Some (convertNumber (ArgNum (parseInt (g 1%nat))) ++ js " percent"));
    (false, re_dash3, fun _ g =>
       Some (convertNumber (ArgStr (g 1%nat)) ++ js " dash " ++
             convertNumber (ArgStr (g 2%nat)) ++ js " dash " ++
             convertNumber (ArgStr (g 3%nat))));
    (false, re_nxn, fun _ g =>
       Some (convertNumber (ArgStr (g 1%nat)) ++ js " times " ++
             convertNumber (ArgStr (g 2%nat))));
    (false, re_nx_words, fun m g =>
       Some (convertNumber (ArgNum (parseInt (g 1%nat))) ++ js " times " ++
             substring_from m (index_of m (js "x ") + 2)));
    (false, re_nx_word, fun _ g =>
       Some (convertNumber (ArgNum (parseInt (g 1%nat))) ++ js " times " ++ g 2%nat));
    (false, re_int, fun m _ => Some (convertNumber (ArgNum (parseInt m)))) ].

(** [processNumberFormats]: [None] when a replacer throws. *)
Definition processNumberFormats (inputText : jsstr) : option jsstr :=
  fold_left (fun acc '(ic, pattern, rep) =>
               match acc with
               | Some text => replace_g_exn ic pattern rep text
               | None => None
               end)
            replacements (Some inputText).

(** [/\(([^)]+)\)/g] *)
Definition re_paren : regex := RCat [RLit 40; RGroup 1 (RPlus (RNotChars [41])); RLit 41].
(** [/\bAoE\b/g] *)
Definition re_aoe : regex := RCat [RWordB; RStr "AoE"; RWordB].
(** [/^[a-zA-Z\s]+$/] *)
Definition re_english : regex :=
  RCat [RBol; RPlus (RClass false (fun c => is_alpha c || is_space c)); REol].

(** [OnlineTTS._isEnglishVoice] *)
Definition _isEnglishVoice (voiceName : jsstr) : bool := re_test re_english voiceName.

(** The replacer of the parenthesised segments. *)
Definition paren_rep : replacer_exn := fun _ g =>
  match processNumberFormats (g 1%nat) with
  | Some t => Some (js "(" ++ t ++ js ")")
  | None => None
  end.

(** [OnlineTTS._convertNumbersToEnglish]; a falsy [text] or [voiceName] is
    the empty string; [None] when the conversion throws. *)
Definition _convertNumbersToEnglish (text voiceName : jsstr) : option jsstr :=
  if jsstr_eqb text [] then Some text
  else if jsstr_eqb voiceName [] || negb (_isEnglishVoice voiceName) then Some text
  else
    let text := replace_g false (RLit 43) (const_rep (js " plus ")) text in
    let text := replace_g false re_aoe (const_rep (js "AOE")) text in
    match replace_g_exn false re_paren paren_rep text with
    | Some text => processNumberFormats text
    | None => None
    end.

End TextNormalizer.

(** The cardinal words as the specification describes them: a ones table,
    a teens table and a tens table, composed with "hundred" and
    "thousand", words separated by one space. *)
Module SpecCardinal.

Definition ones (d : Z) : jsstr :=
  match d with
  | 1 => js "one" | 2 => js "two" | 3 => js "three" | 4 => js "four"
  | 5 => js "five" | 6 => js "six" | 7 => js "seven" | 8 => js "eight"
  | 9 => js "nine" | _ => []
  end.
Definition tens (d : Z) : jsstr :=
  match d with
  | 2 => js "twenty" | 3 => js "thirty" | 4 => js "forty" | 5 => js "fifty"
  | 6 => js "sixty" | 7 => js "seventy" | 8 => js "eighty" | 9 => js "ninety"
  | _ => []
  end.




End SpecCardinal.

(** [0, 1, ..., len - 1] shifted by [start]. *)
Fixpoint zrange (start : Z) (len : nat) : list Z :=
  match len with O => [] | S l => start :: zrange (start + 1) l end.

(** A character of a voice name that [_isEnglishVoice] accepts. *)
Definition english_char (c : Z) : bool := is_alpha c || is_space c.

(** The English branch of [TextNormalizer._convertNumbersToEnglish]: "+" and "AoE", the
    parenthesised segments, then the whole text through the number formats. *)
Definition english_expansion (text : jsstr) : option jsstr :=
  let text := replace_g false (RLit 43) (const_rep (js " plus ")) text in
  let text := replace_g false TextNormalizer.re_aoe (const_rep (js "AOE")) text in
  match replace_g_exn false TextNormalizer.re_paren TextNormalizer.paren_rep text with
  | Some text => TextNormalizer.processNumberFormats text
  | None => None
  end.

(* ------------------------------------------------------------------ *)
(** ** Cache file names and paths *)

Module VoiceCache.

Fixpoint drop_spaces (s : jsstr) : jsstr :=
  match s with
  | c :: r => if is_space c then drop_spaces r else s
  | [] => []
  end.

(** [String.prototype.trim] *)
Definition trim (s : jsstr) : jsstr := rev (drop_spaces (rev (drop_spaces s))).

(** [/[.,!?;:，。！？；：、()（）【】[\]]/g], the class also holding the
    double quote (34) and the single quote (39), each written twice. *)
Definition re_punct : regex :=
  RChars (js ".,!?;:" ++ [65292; 12290; 65281; 65311; 65307; 65306; 12289] ++
          [34; 34; 39; 39] ++ js "()" ++ [65288; 65289; 12304; 12305] ++ js "[]").
(** The class of backslash, slash, colon, star, question mark, double
    quote, less-than, greater-than and bar, replaced by an underscore. *)
Definition re_unsafe : regex := RChars ([92] ++ js "/:*?" ++ [34] ++ js "<>|").
(** [/_+/g] *)
Definition re_underscores : regex := RPlus (RLit 95).
(** [/^_|_$/g] *)
Definition re_edge_underscore : regex := RAlt (RSeq RBol (RLit 95)) (RSeq (RLit 95) REol).

(** [OnlineTTS._textToFileName] with its default [maxLength = 100]. *)
Definition _textToFileName (text : jsstr) : jsstr :=
  let processedText :=
    replace_g false re_edge_underscore (const_rep [])
      (replace_g false re_underscores (const_rep (js "_"))
        (replace_g false (RPlus RSpace) (const_rep (js "_"))
          (replace_g false re_unsafe (const_rep (js "_"))
            (replace_g false re_punct (const_rep []) (trim text))))) in
  if (100 <? Z.of_nat (List.length processedText))%Z then firstn 100 processedText
  else match processedText with [] => js "tts_audio" | _ => processedText end.

(** Node's POSIX [path.join] / [path.normalize]. *)
Fixpoint split_sep (s : jsstr) : list jsstr :=
  match s with
  | [] => [[]]
  | c :: r =>
      let rest := split_sep r in
      if c =? 47 then [] :: rest
      else match rest with
           | x :: xs => (c :: x) :: xs
           | [] => [[c]]
           end
  end.

Definition dot : jsstr := [46].
Definition dotdot : jsstr := [46; 46].

(** One segment of [normalizeString]; the stack holds the result segments,
    last one first. *)
Definition push_seg (allowAboveRoot : bool) (st : list jsstr) (seg : jsstr) : list jsstr :=
  if jsstr_eqb seg [] || jsstr_eqb seg dot then st
  else if jsstr_eqb seg dotdot then
    match st with
    | x :: rest => if jsstr_eqb x dotdot then
                     (if allowAboveRoot then dotdot :: st else st)
                   else rest
    | [] => if allowAboveRoot then [dotdot] else []
    end
  else seg :: st.

Fixpoint join_sep (segs : list jsstr) : jsstr :=
  match segs with
  | [] => []
  | [x] => x
  | x :: rest => x ++ [47] ++ join_sep rest
  end.

Definition path_normalize (p : jsstr) : jsstr :=
  match p with
  | [] => dot
  | c :: _ =>
    let isAbsolute := c =? 47 in
    let trailingSeparator := match rev p with 47 :: _ => true | _ => false end in
    let body := join_sep (rev (fold_left (push_seg (negb isAbsolute)) (split_sep p) [])) in
    let body := match body with
                | [] => if isAbsolute then [] else if trailingSeparator then js "./" else dot
                | _ => if trailingSeparator then body ++ [47] else body
                end in
    if isAbsolute then 47 :: body else body
  end.

Definition path_join (args : list jsstr) : jsstr :=
  match filter (fun a => negb (jsstr_eqb a [])) args with
  | [] => dot
  | a :: rest => path_normalize (fold_left (fun acc x => acc ++ [47] ++ x) rest a)
  end.

(** The [cacheDir] entry is fixed: the constructor copies only [apiKey],
    [voices], [rate], [enabled] and [defaultVoice] from the user settings. *)
Definition cacheDir : jsstr := js "tts_cache".

(** [OnlineTTS._getActualCachePath]; [rootDir] is [path.join(__dirname, '..')]. *)
Definition _getActualCachePath (rootDir : jsstr) : jsstr := path_join [rootDir; cacheDir].

(** [OnlineTTS._getCacheFilePath] *)
Definition _getCacheFilePath (rootDir text voiceName : jsstr) : jsstr :=
  path_join [_getActualCachePath rootDir; voiceName; _textToFileName text ++ js ".mp3"].

(** A path segment that [path.normalize] keeps as it is. *)
Definition plain_seg (x : jsstr) : Prop :=
  x <> [] /\ ~ In 47 x /\ x <> dot /\ x <> dotdot.

(** The characters matched by a one-character class pattern. *)
Definition class_chars (r : regex) (c : Z) : bool :=
  match r with RClass false p => p c | _ => false end.

(** The absolute, normalized path with the given segments. *)
Definition abs_path (segs : list jsstr) : jsstr := 47 :: join_sep segs.

(** The cache directory of a voice under the root [abs_path segs]. *)
Definition voice_cache_dir (segs : list jsstr) (name : jsstr) : jsstr :=
  abs_path (segs ++ [cacheDir; name]).

(** A character a cache file name may hold: no white space, none of the
    characters replaced by an underscore, none of the punctuation removed. *)
Definition fname_char_ok (c : Z) : Prop :=
  is_space c = false /\ class_chars re_unsafe c = false /\ class_chars re_punct c = false.

End VoiceCache.

(* ------------------------------------------------------------------ *)
(** ** The OnlineTTS client: settings, voices, the cache on disk and the
    synthesis request *)

Module OnlineTTS.

Import VoiceCache.

(** The value read from a property of the [voices] object: an own string
    property, a property inherited from [Object.prototype] (a function or
    the prototype object itself, both truthy) or [undefined]. *)
Inductive jsval := JUndef | JStr (s : jsstr) | JProto.

Definition truthy (v : jsval) : bool :=
  match v with JUndef => false | JStr s => negb (jsstr_eqb s []) | JProto => true end.

(** A plain object: its own string-keyed properties in creation order. *)
Definition obj := list (jsstr * jsstr).

(** The names [Object.prototype] provides to every plain object. *)
Definition proto_keys : list jsstr :=
  map js ["constructor"; "__proto__"; "toString"; "toLocaleString"; "valueOf";
          "hasOwnProperty"; "isPrototypeOf"; "propertyIsEnumerable";
          "__defineGetter__"; "__defineSetter__"; "__lookupGetter__"; "__lookupSetter__"]%string.

Fixpoint own_get (o : obj) (k : jsstr) : option jsstr :=
  match o with
  | [] => None
  | (k', v) :: r => if jsstr_eqb k k' then Some v else own_get r k
  end.

(** [o[k]] *)
Definition obj_get (o : obj) (k : jsstr) : jsval :=
  match own_get o k with
  | Some v => JStr v
  | None => if existsb (jsstr_eqb k) proto_keys then JProto else JUndef
  end.

Fixpoint own_set (o : obj) (k v : jsstr) : obj :=
  match o with
  | [] => [(k, v)]
  | (k', v') :: r => if jsstr_eqb k k' then (k', v) :: r else (k', v') :: own_set r k v
  end.

(** [o[k] = v] with a string [v]: an own property is updated in place, a new
    key is appended, except [__proto__], whose inherited setter ignores a
    value that is not an object. *)
Definition obj_set (o : obj) (k v : jsstr) : obj :=
  match own_get o k with
  | Some _ => own_set o k v
  | None => if jsstr_eqb k (js "__proto__") then o else own_set o k v
  end.

(** [delete o[k]]: only an own property is removed. *)
Definition obj_delete (o : obj) (k : jsstr) : obj :=
  filter (fun kv => negb (jsstr_eqb (fst kv) k)) o.

(** Array-index keys: canonical decimal numerals below 2^32 - 1. *)
Definition is_array_index (k : jsstr) : bool :=
  negb (jsstr_eqb k []) && forallb is_digit k &&
  jsstr_eqb (Z_toString (digits_value k)) k && (digits_value k <? 4294967295).

Fixpoint insert_index (k : jsstr) (l : list jsstr) : list jsstr :=
  match l with
  | [] => [k]
  | k' :: r => if digits_value k <=? digits_value k' then k :: l else k' :: insert_index k r
  end.

(** [Object.keys(o)]: the array-index keys in ascending numeric order, then
    the other keys in creation order. *)
Definition object_keys (o : obj) : list jsstr :=
  let ks := map fst o in
  fold_right insert_index [] (filter is_array_index ks) ++
  filter (fun k => negb (is_array_index k)) ks.

(** [this.settings]; [voices] is [None] when it holds a falsy value. *)
Record settings := mkSettings {
  enabled : bool;
  apiKey : jsstr;
  voices : option obj;
  defaultVoice : jsstr
}.

Record tts := mkTTS { rootDir : jsstr; cfg : settings }.

Definition voices_or_empty (c : tts) : obj :=
  match voices (cfg c) with Some vs => vs | None => [] end.

(** The file system: absolute paths with their node; unlinking a path of
    [locked] fails. *)
Inductive node := NFile (data : list Z) | NDir.

Record fsys := mkFs { entries : list (jsstr * node); locked : list jsstr }.

Fixpoint lookup_entry (es : list (jsstr * node)) (p : jsstr) : option node :=
  match es with
  | [] => None
  | (q, n) :: r => if jsstr_eqb p q then Some n else lookup_entry r p
  end.

Definition existsSync (f : fsys) (p : jsstr) : bool :=
  match lookup_entry (entries f) p with Some _ => true | None => false end.

Fixpoint drop_to_sep (r : jsstr) : jsstr :=
  match r with [] => [] | c :: r' => if c =? 47 then r' else drop_to_sep r' end.

(** [path.dirname] of an absolute normalized path. *)
Definition dirname (p : jsstr) : jsstr :=
  match rev (drop_to_sep (rev p)) with [] => [47] | d => d end.

Fixpoint set_entry (es : list (jsstr * node)) (p : jsstr) (n : node) : list (jsstr * node) :=
  match es with
  | [] => [(p, n)]
  | (q, m) :: r => if jsstr_eqb p q then (q, n) :: r else (q, m) :: set_entry r p n
  end.

Definition remove_entry (es : list (jsstr * node)) (p : jsstr) : list (jsstr * node) :=
  filter (fun e => negb (jsstr_eqb (fst e) p)) es.

(** [fs.writeFileSync(p, data)]: [None] when it throws (no parent
    directory, or [p] is a directory). *)
Definition writeFileSync (f : fsys) (p : jsstr) (data : list Z) : option fsys :=
  match lookup_entry (entries f) (dirname p), lookup_entry (entries f) p with
  | Some NDir, Some NDir => None
  | Some NDir, _ => Some (mkFs (set_entry (entries f) p (NFile data)) (locked f))
  | _, _ => None
  end.

(** [fs.unlinkSync(p)] *)
Definition unlinkSync (f : fsys) (p : jsstr) : option fsys :=
  match lookup_entry (entries f) p with
  | Some (NFile _) =>
      if existsb (jsstr_eqb p) (locked f) then None
      else Some (mkFs (remove_entry (entries f) p) (locked f))
  | _ => None
  end.

Definition plain_segb (x : jsstr) : bool :=
  negb (jsstr_eqb x []) && negb (existsb (Z.eqb 47) x) &&
  negb (jsstr_eqb x dot) && negb (jsstr_eqb x dotdot).

(** The name of [p] inside directory [d], if [p] is directly in [d]. *)
Definition child_name (d p : jsstr) : option jsstr :=
  let n := S (List.length d) in
  if jsstr_eqb (firstn n p) (d ++ [47]) && plain_segb (skipn n p)
  then Some (skipn n p) else None.

(** [fs.readdirSync(d)]: [None] when it throws ([d] is not a directory). *)
Definition readdirSync (f : fsys) (d : jsstr) : option (list jsstr) :=
  match lookup_entry (entries f) d with
  | Some NDir =>
      Some (flat_map (fun e => match child_name d (fst e) with
                               | Some x => [x] | None => [] end) (entries f))
  | _ => None
  end.

(** [fs.mkdirSync(dir, { recursive: true })]: every missing ancestor of an
    absolute path is created; [None] when one of them is a file. *)
Definition mkdirSync_recursive (f : fsys) (dir : jsstr) : option fsys :=
  let segs := filter (fun s => negb (jsstr_eqb s [])) (split_sep dir) in
  fold_left (fun acc k =>
    match acc with
    | None => None
    | Some g =>
        let p := 47 :: join_sep (firstn k segs) in
        match lookup_entry (entries g) p with
        | Some NDir => Some g
        | Some (NFile _) => None
        | None => Some (mkFs (set_entry (entries g) p NDir) (locked g))
        end
    end) (seq 1 (List.length segs)) (Some f).

(** [_ensureDir]: a failure is logged and ignored. *)
Definition _ensureDir (f : fsys) (dir : jsstr) : fsys :=
  if existsSync f dir then f
  else match mkdirSync_recursive f dir with Some g => g | None => f end.

(** [isAvailable] *)
Definition isAvailable (c : tts) : bool :=
  enabled (cfg c) && negb (jsstr_eqb (apiKey (cfg c)) []).

(** [_getVoiceId]; [null] is represented by [JUndef], both falsy. *)
Definition _getVoiceId (c : tts) (voiceName : jsstr) : jsval :=
  match voices (cfg c) with
  | None => JUndef
  | Some vs =>
      if jsstr_eqb voiceName [] || (List.length (object_keys vs) =? 0)%nat then JUndef
      else let v := obj_get vs voiceName in
           if truthy v then v else obj_get vs (defaultVoice (cfg c))
  end.

(** The observable side of the outside world: the file system and the
    number of HTTPS requests sent and of [writeFileSync] calls made. *)
Record world := mkWorld { wfs : fsys; requests : nat; writes : nat }.

(** How the synthesis endpoint answers a request. *)
Inductive response := Answer (status : Z) (body : list Z) | NetError | NetTimeout.

Inductive err :=
  | ENotEnabled | ENoApiKey | ENoVoices | EInvalidText | EInvalidVoice
  | EStatus (code : Z) | ENetwork | ETimeout | ESave
  | EStackOverflow.  (* the RangeError of a runaway recursion *)

Inductive outcome := Resolved (v : jsstr) | Rejected (e : err).

(** [_fetchAudioFromAPI(text, voiceName)], for a string [text]: the
    response body of a 200 answer is concatenated and written to the cache
    file as it is. *)
Definition _fetchAudioFromAPI (c : tts) (text voiceName : jsstr) (resp : response)
    (w : world) : outcome * world :=
  if jsstr_eqb text [] then (Rejected EInvalidText, w)
  else if jsstr_eqb (apiKey (cfg c)) [] then (Rejected ENoApiKey, w)
  else if negb (truthy (_getVoiceId c voiceName)) then (Rejected EInvalidVoice, w)
  else
    let w := mkWorld (wfs w) (S (requests w)) (writes w) in
    match resp with
    | Answer status body =>
        if status =? 200 then
          let filePath := _getCacheFilePath (rootDir c) text voiceName in
          let w := mkWorld (wfs w) (requests w) (S (writes w)) in
          match writeFileSync (wfs w) filePath body with
          | Some f => (Resolved filePath, mkWorld f (requests w) (writes w))
          | None => (Rejected ESave, w)
          end
        else (Rejected (EStatus status), w)
    | NetError => (Rejected ENetwork, w)
    | NetTimeout => (Rejected ETimeout, w)
    end.

(** [_validateAndPrepare(text, voiceName)]: the processed text, the cache
    file path and the voice name used. *)
Definition _validateAndPrepare (c : tts) (text voiceName : jsstr)
    : err + (jsstr * jsstr * jsstr) :=
  if negb (isAvailable c) then
    inl (if enabled (cfg c) then ENoApiKey else ENotEnabled)
  else
    let keys := object_keys (voices_or_empty c) in
    if (List.length keys =? 0)%nat then inl ENoVoices
    else
      let voiceName :=
        if jsstr_eqb voiceName [] && jsstr_eqb (defaultVoice (cfg c)) []
        then hd [] keys else voiceName in
      match TextNormalizer._convertNumbersToEnglish text voiceName with
      | None => inl EStackOverflow
      | Some processedText =>
          inr (processedText, _getCacheFilePath (rootDir c) processedText voiceName, voiceName)
      end.

(** The default parameter [voiceName = this.settings.defaultVoice]. *)
Definition voice_arg (c : tts) (voiceName : option jsstr) : jsstr :=
  match voiceName with Some v => v | None => defaultVoice (cfg c) end.

(** [generateAudio(text, voiceName)] *)
Definition generateAudio (c : tts) (text : jsstr) (voiceName : option jsstr)
    (resp : response) (w : world) : outcome * world :=
  match _validateAndPrepare c text (voice_arg c voiceName) with
  | inl e => (Rejected e, w)
  | inr (processedText, filePath, voice) =>
      if existsSync (wfs w) filePath then (Resolved filePath, w)
      else match _fetchAudioFromAPI c processedText voice resp w with
           | (Resolved _, w') => (Resolved filePath, w')
           | (Rejected e, w') => (Rejected e, w')
           end
  end.

Definition with_voices (c : tts) (vs : obj) (dflt : jsstr) : tts :=
  mkTTS (rootDir c) (mkSettings (enabled (cfg c)) (apiKey (cfg c)) (Some vs) dflt).

(** [setVoice(name, id)] *)
Definition setVoice (c : tts) (f : fsys) (name id : jsstr) : tts * fsys :=
  let vs := obj_set (voices_or_empty c) name id in
  let dflt := if (List.length (object_keys vs) =? 1)%nat then name
              else defaultVoice (cfg c) in
  (with_voices c vs dflt,
   _ensureDir f (path_join [_getActualCachePath (rootDir c); name])).

(** The [readdirSync(...).forEach] loop of [deleteVoice]: each failed
    [unlinkSync] is swallowed. *)
Definition unlink_all (cachePath : jsstr) (files : list jsstr) (f : fsys) : fsys :=
  fold_left (fun g file =>
    match unlinkSync g (path_join [cachePath; file]) with Some g' => g' | None => g end)
    files f.

(** [deleteVoice(name)] *)
Definition deleteVoice (c : tts) (f : fsys) (name : jsstr) : bool * tts * fsys :=
  match voices (cfg c) with
  | None => (false, c, f)
  | Some vs =>
      if negb (truthy (obj_get vs name)) || jsstr_eqb (defaultVoice (cfg c)) name
      then (false, c, f)
      else
        let c' := with_voices c (obj_delete vs name) (defaultVoice (cfg c)) in
        let cachePath := path_join [_getActualCachePath (rootDir c); name] in
        let f' := if existsSync f cachePath then
                    match readdirSync f cachePath with
                    | Some files => unlink_all cachePath files f
                    | None => f
                    end
                  else f in
        (true, c', f')
  end.

(** A path that [unlinkSync] removes: a regular file that is not locked. *)
Definition file_unlocked (f : fsys) (p : jsstr) : bool :=
  match lookup_entry (entries f) p with
  | Some (NFile _) => negb (existsb (jsstr_eqb p) (locked f))
  | _ => false
  end.

(** A file directly in the cache directory [dir] that [unlinkSync] can
    remove. *)
Definition cached_removable (f : fsys) (dir p : jsstr) : bool :=
  match child_name dir p with Some _ => file_unlocked f p | None => false end.

(** The paths of the entries directly in [dir]. *)
Definition child_paths (dir : jsstr) (es : list (jsstr * node)) : list jsstr :=
  flat_map (fun e => match child_name dir (fst e) with Some _ => [fst e] | None => [] end) es.

(** [_ensureCacheDirs]: the cache root, then one directory per voice. *)
Definition _ensureCacheDirs (c : tts) (f : fsys) : fsys :=
  let cachePath := _getActualCachePath (rootDir c) in
  let f := _ensureDir f cachePath in
  fold_left (fun g voiceName => _ensureDir g (path_join [cachePath; voiceName]))
            (object_keys (voices_or_empty c)) f.

(** [hasCachedAudio(text, voiceName)]; [None] when the text conversion
    throws. *)
Definition hasCachedAudio (c : tts) (f : fsys) (text : jsstr) (voiceName : option jsstr)
    : option bool :=
  let voiceName := voice_arg c voiceName in
  match TextNormalizer._convertNumbersToEnglish text voiceName with
  | Some processedText => Some (existsSync f (_getCacheFilePath (rootDir c) processedText voiceName))
  | None => None
  end.

(** How [speak] ends: the cached file is handed to [playAudio] (whose
    promise it returns), the audio is fetched and cached and the promise
    resolves, or it rejects. *)
Inductive spoken := SpeakPlay (filePath : jsstr) | SpeakFetched | SpeakFailed (e : err).

(** [speak(text, voiceName)] *)
Definition speak (c : tts) (text : jsstr) (voiceName : option jsstr)
    (resp : response) (w : world) : spoken * world :=
  match _validateAndPrepare c text (voice_arg c voiceName) with
  | inl e => (SpeakFailed e, w)
  | inr (processedText, filePath, voice) =>
      if existsSync (wfs w) filePath then (SpeakPlay filePath, w)
      else match _fetchAudioFromAPI c processedText voice resp w with
           | (Resolved _, w') => (SpeakFetched, w')
           | (Rejected e, w') => (SpeakFailed e, w')
           end
  end.

(** [setDefaultVoice(name)] *)
Definition setDefaultVoice (c : tts) (name : jsstr) : bool * tts :=
  match voices (cfg c) with
  | Some vs => if truthy (obj_get vs name) then (true, with_voices c vs name) else (false, c)
  | None => (false, c)
  end.

(** A JavaScript number: a finite value (exact, [-0] merged with [0]),
    [NaN] or an infinity. *)
Inductive jsnum := JNum (q : Q) | JNaN | JPosInf | JNegInf.

Definition num_truthy (x : jsnum) : bool :=
  match x with JNum q => negb (Qeq_bool q 0) | JNaN => false | _ => true end.

(** [a <= b] on numbers that are not [NaN]. *)
Definition num_le (a b : jsnum) : bool :=
  match a, b with
  | JNegInf, _ | _, JPosInf => true
  | JNum p, JNum q => Qle_bool p q
  | _, _ => false
  end.

(** [Math.min(a, b)] and [Math.max(a, b)] *)
Definition Math_min (a b : jsnum) : jsnum :=
  match a, b with
  | JNaN, _ | _, JNaN => JNaN
  | _, _ => if num_le a b then a else b
  end.
Definition Math_max (a b : jsnum) : jsnum :=
  match a, b with
  | JNaN, _ | _, JNaN => JNaN
  | _, _ => if num_le a b then b else a
  end.

(** [parseFloat] of a number: its decimal [toString] reads back as the
    same number ([NaN] and the infinities included). *)
Definition parseFloat_num (x : jsnum) : jsnum := x.

(** [setRate(rate)] for a number [rate] (the command handler passes
    [parseFloat(arg2)]): the rate stored and returned. *)
Definition setRate (rate : jsnum) : jsnum :=
  Math_max (JNum (1 # 2))
    (Math_min (JNum 5)
       (let x := parseFloat_num rate in if num_truthy x then x else JNum 1)).

(** A configuration for examples: the module lives in /mods/guide, online
    TTS is enabled with a key and one voice, Kamisato, which is the
    default; the cache directories exist and hold no audio yet. *)
Definition demo_tts : tts :=
  mkTTS (js "/mods/guide")
    (mkSettings true (js "key") (Some [(js "Kamisato", js "id1")]) (js "Kamisato")).

Definition demo_fs : fsys :=
  mkFs [(js "/mods", NDir); (js "/mods/guide", NDir); (js "/mods/guide/tts_cache", NDir);
        (js "/mods/guide/tts_cache/Kamisato", NDir)] [].

Definition demo_world : world := mkWorld demo_fs 0 0.

(** Two voices, Kamisato and Bob (the default); the Kamisato directory holds
    two cached files, the second of which cannot be unlinked. *)
Definition demo_tts2 : tts :=
  mkTTS (js "/mods/guide")
    (mkSettings true (js "key") (Some [(js "Kamisato", js "id1"); (js "Bob", js "id2")])
       (js "Bob")).

Definition demo_fs2 : fsys :=
  mkFs [(js "/mods", NDir); (js "/mods/guide", NDir); (js "/mods/guide/tts_cache", NDir);
        (js "/mods/guide/tts_cache/Kamisato", NDir);
        (js "/mods/guide/tts_cache/Kamisato/hi.mp3", NFile [73; 68; 51]);
        (js "/mods/guide/tts_cache/Kamisato/go.mp3", NFile [255; 251]);
        (js "/mods/guide/tts_cache/Bob", NDir);
        (js "/mods/guide/tts_cache/Bob/hi.mp3", NFile [73; 68; 51])]
       [js "/mods/guide/tts_cache/Kamisato/go.mp3"].

(** The step of the loop of [mkdirSync_recursive]. *)
Definition mkdir_step (segs : list jsstr) (acc : option fsys) (k : nat) : option fsys :=
  match acc with
  | None => None
  | Some g =>
      let p := 47 :: join_sep (firstn k segs) in
      match lookup_entry (entries g) p with
      | Some NDir => Some g
      | Some (NFile _) => None
      | None => Some (mkFs (set_entry (entries g) p NDir) (locked g))
      end
  end.

(** No ancestor of [abs_path L] (nor that path) is a regular file. *)
Definition no_files_above (f : fsys) (L : list jsstr) : Prop :=
  forall k d, (1 <= k)%nat -> lookup_entry (entries f) (abs_path (firstn k L)) <> Some (NFile d).

(** [g] keeps the directories of [f] and has no regular file [f] lacks. *)
Definition fs_grows (f g : fsys) : Prop :=
  (forall p, lookup_entry (entries f) p = Some NDir -> lookup_entry (entries g) p = Some NDir) /\
  (forall p d, lookup_entry (entries g) p = Some (NFile d) -> lookup_entry (entries f) p = Some (NFile d)).

End OnlineTTS.

(* ------------------------------------------------------------------ *)
(** ** The audio player: one resident worker process fed through stdin *)

Module AudioPlayer.

(** A line written to the worker's stdin: a (base64) file path to play, or
    QUIT. *)
Inductive line := LPlay (p : jsstr) | LQuit.

(** A spawned [cscript] process running the player script: the lines not
    read yet, the file it is playing, whether its read loop still runs, and
    whether its [close] event has been delivered. *)
Record worker := mkWorker {
  inbox : list line;
  busy : option jsstr;
  running : bool;
  closed : bool
}.

(** Who awaits the promise of a [play]: the [_playQueue] loop, or a direct
    caller of [play]. *)
Inductive owner := FromQueue | Direct.

Record pending := mkPending { pfile : jsstr; powner : owner }.

(** The fields of an [AudioPlayer] ([idleTimer] as whether a timeout is
    armed, [process] as the index of its worker), the processes spawned so
    far, and the settled play promises (true: resolved, false: rejected). *)
Record state := mkState {
  queue : list jsstr;
  isPlaying : bool;
  _isProcessing : bool;
  process : option nat;
  timerArmed : bool;
  pendingResolves : list pending;
  workers : list worker;
  settled : list (jsstr * bool)
}.

Definition init : state := mkState [] false false None false [] [] [].

Definition set_queue (s : state) (q : list jsstr) : state :=
  mkState q (isPlaying s) (_isProcessing s) (process s) (timerArmed s)
          (pendingResolves s) (workers s) (settled s).

Definition set_isPlaying (s : state) (b : bool) : state :=
  mkState (queue s) b (_isProcessing s) (process s) (timerArmed s)
          (pendingResolves s) (workers s) (settled s).

Definition set_isProcessing (s : state) (b : bool) : state :=
  mkState (queue s) (isPlaying s) b (process s) (timerArmed s)
          (pendingResolves s) (workers s) (settled s).

Definition set_process (s : state) (o : option nat) : state :=
  mkState (queue s) (isPlaying s) (_isProcessing s) o (timerArmed s)
          (pendingResolves s) (workers s) (settled s).

Definition set_timer (s : state) (b : bool) : state :=
  mkState (queue s) (isPlaying s) (_isProcessing s) (process s) b
          (pendingResolves s) (workers s) (settled s).

Definition set_pending (s : state) (l : list pending) : state :=
  mkState (queue s) (isPlaying s) (_isProcessing s) (process s) (timerArmed s)
          l (workers s) (settled s).

Definition set_workers (s : state) (ws : list worker) : state :=
  mkState (queue s) (isPlaying s) (_isProcessing s) (process s) (timerArmed s)
          (pendingResolves s) ws (settled s).

Definition log (s : state) (p : jsstr) (ok : bool) : state :=
  mkState (queue s) (isPlaying s) (_isProcessing s) (process s) (timerArmed s)
          (pendingResolves s) (workers s) (settled s ++ [(p, ok)]).

Definition update_worker (s : state) (i : nat) (g : worker -> worker) : state :=
  set_workers s (map (fun '(j, w) => if Nat.eqb i j then g w else w)
                     (combine (seq 0 (List.length (workers s))) (workers s))).

(** [this.process.stdin.write(...)] *)
Definition write_line (s : state) (l : line) : state :=
  match process s with
  | Some i => update_worker s i (fun w => mkWorker (inbox w ++ [l]) (busy w) (running w) (closed w))
  | None => s
  end.

(** [_startProcess] *)
Definition _startProcess (s : state) : state :=
  match process s with
  | Some _ => s
  | None =>
      set_process (set_workers s (workers s ++ [mkWorker [] None true false]))
                  (Some (List.length (workers s)))
  end.

(** [_killProcess] *)
Definition _killProcess (s : state) : state :=
  set_timer (match process s with
             | Some _ => set_process (write_line s LQuit) None
             | None => s
             end) false.

Section Player.

(** [fs.existsSync] on the audio files. *)
Variable fileExists : jsstr -> bool.

(** [play(filePath)] up to its first await: the new state and whether the
    promise is already settled (rejected because the file is missing). *)
Definition play (s : state) (p : jsstr) (o : owner) : state * bool :=
  if negb (fileExists p) then (log s p false, true)
  else
    let s := _startProcess s in
    let s := set_timer s false in
    let s := set_isPlaying s true in
    let s := set_pending s (pendingResolves s ++ [mkPending p o]) in
    (write_line s (LPlay p), false).

(** The [_playQueue] loop from the top of its [while]: it plays the next
    queued file and stops at the first [await] that does not settle at
    once; with an empty queue it ends and clears [_isProcessing]. *)
Fixpoint drain (fuel : nat) (s : state) : state :=
  match fuel with
  | O => s
  | S fuel =>
      match queue s with
      | [] => set_isProcessing s false
      | p :: q =>
          let (s', settled_now) := play (set_queue s q) p FromQueue in
          if settled_now then drain fuel s' else s'
      end
  end.

Definition resume (s : state) : state := drain (S (List.length (queue s))) s.

(** The microtasks after a promise settles: the loop resumes if it
    awaited one of the settled promises. *)
Definition resume_if (wake : bool) (s : state) : state := if wake then resume s else s.

Definition is_queue_owner (x : pending) : bool :=
  match powner x with FromQueue => true | Direct => false end.

(** The [data] handler for one DONE line, then the microtasks. *)
Definition on_done (s : state) : state :=
  match pendingResolves s with
  | [] => s
  | item :: rest =>
      let s := set_pending s rest in
      let s := set_isPlaying s false in
      let s := log s (pfile item) true in
      let s := set_timer s true in
      resume_if (is_queue_owner item) s
  end.

(** The [close] handler, then the microtasks. *)
Definition on_close (s : state) : state :=
  let items := pendingResolves s in
  let s := set_process s None in
  let s := fold_left (fun s item => log s (pfile item) false) items (set_pending s []) in
  resume_if (existsb is_queue_owner items) s.

(** [queueAndPlay(filePath)] up to its first await. *)
Definition queueAndPlay (s : state) (p : jsstr) : state :=
  let s := set_queue s (queue s ++ [p]) in
  if negb (isPlaying s) && negb (_isProcessing s) then resume (set_isProcessing s true)
  else s.

End Player.

(** [stop()] *)
Definition stop (s : state) : state :=
  set_isProcessing (set_isPlaying (_killProcess (set_queue s [])) false) false.

(** What can happen next: a call of [queueAndPlay] or [play], worker [i]
    reading its next stdin line, finishing the file it plays (DONE on
    stdout), or its exit being reported ([close]), and the idle timeout
    firing. *)
Inductive event :=
  | EvEnqueue (p : jsstr)
  | EvPlay (p : jsstr)
  | EvRead (i : nat)
  | EvDone (i : nat)
  | EvClose (i : nat)
  | EvTimer.

Definition step (fileExists : jsstr -> bool) (s : state) (ev : event) : option state :=
  match ev with
  | EvEnqueue p => Some (queueAndPlay fileExists s p)
  | EvPlay p => Some (fst (play fileExists s p Direct))
  | EvRead i =>
      match nth_error (workers s) i with
      | Some (mkWorker (LPlay p :: rest) None true c) =>
          Some (update_worker s i (fun _ => mkWorker rest (Some p) true c))
      | Some (mkWorker (LQuit :: rest) None true c) =>
          Some (update_worker s i (fun _ => mkWorker rest None false c))
      | _ => None
      end
  | EvDone i =>
      match nth_error (workers s) i with
      | Some (mkWorker l (Some _) r c) =>
          Some (on_done fileExists (update_worker s i (fun _ => mkWorker l None r c)))
      | _ => None
      end
  | EvClose i =>
      match nth_error (workers s) i with
      | Some (mkWorker l None false false) =>
          Some (on_close fileExists (update_worker s i (fun _ => mkWorker l None false true)))
      | _ => None
      end
  | EvTimer => if timerArmed s then Some (_killProcess s) else None
  end.

Fixpoint run (fileExists : jsstr -> bool) (s : state) (evs : list event) : option state :=
  match evs with
  | [] => Some s
  | ev :: evs => match step fileExists s ev with
                 | Some s' => run fileExists s' evs
                 | None => None
                 end
  end.

(** The number of workers playing a file at the same time. *)
Definition busy_count (s : state) : nat :=
  List.length (filter (fun w => match busy w with Some _ => true | None => false end)
                      (workers s)).

(** All audio files exist. *)
Definition all_present : jsstr -> bool := fun _ => true.

(** A first file played and finished, the idle timeout fired, then two more
    files queued while the old worker had not exited yet. *)
Definition idle_race_prefix : list event :=
  [EvEnqueue (js "a.mp3"); EvRead 0; EvDone 0; EvTimer;
   EvEnqueue (js "b.mp3"); EvEnqueue (js "c.mp3"); EvRead 1; EvRead 0; EvClose 0].

End AudioPlayer.

(* ================================================================== *)
(** * Theorems *)

Import TextNormalizer.


Lemma in_zrange (k start : Z) (len : nat) :
  start <= k < start + Z.of_nat len -> In k (zrange start len).
Proof.
  revert start. induction len as [|l IH]; intros start H; simpl in *; [lia|].
  destruct (Z.eq_dec start k) as [E|E]; [left; exact E|].
  right. apply IH. lia.
Qed.

(** ** Doubles with an integer value *)

Ltac digit_cases c :=
  match goal with
  | H : 48 <= c <= 57 |- _ =>
      assert (c = 48 \/ c = 49 \/ c = 50 \/ c = 51 \/ c = 52 \/ c = 53 \/
              c = 54 \/ c = 55 \/ c = 56 \/ c = 57) by lia;
      repeat match goal with
             | E : _ \/ _ |- _ => destruct E as [E|E]; [subst c|]
             | E : c = _ |- _ => subst c
             end
  end.

Lemma is_digit_range (c : Z) : is_digit c = true <-> 48 <= c <= 57.
Proof.
  unfold is_digit. rewrite andb_true_iff, !Z.leb_le. tauto.
Qed.

Lemma is_space_digit (c : Z) : is_digit c = true -> is_space c = false.
Proof. intros H. apply is_digit_range in H. digit_cases c; reflexivity. Qed.

Lemma digits_aux_acc (fuel : nat) : forall n acc,
  digits_aux fuel n acc = digits_aux fuel n [] ++ acc.
Proof.
  induction fuel as [|f IH]; intros n acc; cbn [digits_aux]; [reflexivity|].
  destruct (n <? 10); [reflexivity|].
  rewrite (IH _ (_ :: acc)), (IH _ [_]), <- app_assoc. reflexivity.
Qed.

Lemma digits_aux_digits (fuel : nat) : forall n, 0 <= n ->
  forallb is_digit (digits_aux fuel n []) = true.
Proof.
  induction fuel as [|f IH]; intros n Hn; cbn [digits_aux]; [reflexivity|].
  destruct (Z.ltb_spec n 10).
  - cbn [forallb]. rewrite andb_true_r. apply is_digit_range. lia.
  - rewrite digits_aux_acc, forallb_app, IH by (apply Z.div_pos; lia).
    cbn [forallb]. rewrite andb_true_r. apply is_digit_range.
    pose proof (Z.mod_pos_bound n 10 ltac:(lia)). lia.
Qed.

Lemma digits_value_app (l1 l2 : jsstr) :
  digits_value (l1 ++ l2) =
  fold_left (fun acc c => acc * 10 + (c - 48)) l2 (digits_value l1).
Proof. unfold digits_value. apply fold_left_app. Qed.

Lemma div10_bound (n : Z) (f : nat) :
  10 <= n -> n < 2 ^ Z.of_nat (S f) -> 0 < n / 10 < 2 ^ Z.of_nat f.
Proof.
  intros H1 H2. rewrite Nat2Z.inj_succ, Z.pow_succ_r in H2 by lia.
  pose proof (Z.pow_nonneg 2 (Z.of_nat f) ltac:(lia)).
  split; [apply Z.div_str_pos; lia|].
  apply Z.div_lt_upper_bound; lia.
Qed.

Lemma digits_aux_value (fuel : nat) : forall n, 0 <= n < 2 ^ Z.of_nat fuel ->
  digits_value (digits_aux fuel n []) = n.
Proof.
  induction fuel as [|f IH]; intros n Hn.
  - cbn in Hn |- *. lia.
  - cbn [digits_aux]. destruct (Z.ltb_spec n 10).
    + unfold digits_value. cbn [fold_left]. lia.
    + destruct (div10_bound n f ltac:(lia) ltac:(lia)).
      rewrite digits_aux_acc, digits_value_app, IH by lia.
      cbn [fold_left]. pose proof (Z.div_mod n 10 ltac:(lia)). lia.
Qed.

Lemma digits_aux_head (fuel : nat) : forall n, 0 < n < 2 ^ Z.of_nat fuel ->
  exists d t, digits_aux fuel n [] = d :: t /\ 49 <= d <= 57.
Proof.
  induction fuel as [|f IH]; intros n Hn.
  - cbn in Hn. lia.
  - cbn [digits_aux]. destruct (Z.ltb_spec n 10).
    + exists (48 + n), []. split; [reflexivity|lia].
    + destruct (IH (n / 10)) as (d & t & E & Hd).
      { destruct (div10_bound n f ltac:(lia) ltac:(lia)). lia. }
      rewrite digits_aux_acc, E. exists d, (t ++ [48 + n mod 10]). split; [reflexivity|exact Hd].
Qed.

(** The number of digits: [10^(L-1) <= n < 10^L]. *)
Lemma digits_aux_length (fuel : nat) : forall n, 0 < n < 2 ^ Z.of_nat fuel ->
  10 ^ (Z.of_nat (List.length (digits_aux fuel n [])) - 1) <= n <
  10 ^ Z.of_nat (List.length (digits_aux fuel n [])).
Proof.
  induction fuel as [|f IH]; intros n Hn.
  - cbn in Hn. lia.
  - cbn [digits_aux]. destruct (Z.ltb_spec n 10).
    + cbn. lia.
    + destruct (div10_bound n f ltac:(lia) ltac:(lia)) as [Hq1 Hq2].
      rewrite digits_aux_acc, length_app, Nat2Z.inj_add. cbn [List.length].
      change (Z.of_nat 1) with 1.
      specialize (IH (n / 10) (conj Hq1 Hq2)).
      set (L := Z.of_nat (List.length (digits_aux f (n / 10) []))) in *.
      assert (HL : 1 <= L).
      { destruct (Z.le_gt_cases 1 L) as [h|h]; [exact h|].
        assert (L - 1 < 0) by lia. rewrite (Z.pow_neg_r 10 (L - 1)) in IH by lia.
        destruct (Z.le_gt_cases L 0); [|lia].
        assert (L = 0) by lia. rewrite H2 in IH. cbn in IH. lia. }
      replace (L + 1 - 1) with L by lia.
      rewrite Z.pow_add_r by lia. change (10 ^ 1) with 10.
      replace L with ((L - 1) + 1) at 1 by lia.
      rewrite Z.pow_add_r by lia. change (10 ^ 1) with 10.
      pose proof (Z.div_mod n 10 ltac:(lia)).
      pose proof (Z.mod_pos_bound n 10 ltac:(lia)).
      nia.
Qed.

Lemma log2_fuel (n : Z) : 0 <= n -> n < 2 ^ Z.of_nat (Z.to_nat (Z.log2 n) + 1).
Proof.
  intros Hn. rewrite Nat2Z.inj_add, Z2Nat.id by apply Z.log2_nonneg.
  change (Z.of_nat 1) with 1.
  destruct (Z.eq_dec n 0) as [->|Hn0]; [cbn; lia|].
  destruct (Z.log2_spec n ltac:(lia)) as [_ H]. rewrite <- Z.add_1_r in H. exact H.
Qed.

Lemma Z_toString_pos (n : Z) : 0 < n ->
  Z_toString n = digits_aux (Z.to_nat (Z.log2 n) + 1) n [].
Proof. intros H. unfold Z_toString. destruct (Z.ltb_spec n 0); [lia|reflexivity]. Qed.

Lemma Z_toString_digits (n : Z) : 0 < n ->
  forallb is_digit (Z_toString n) = true /\ digits_value (Z_toString n) = n /\
  (exists d t, Z_toString n = d :: t /\ 49 <= d <= 57) /\
  10 ^ (Z.of_nat (List.length (Z_toString n)) - 1) <= n <
  10 ^ Z.of_nat (List.length (Z_toString n)).
Proof.
  intros H. rewrite Z_toString_pos by exact H.
  pose proof (log2_fuel n ltac:(lia)).
  split; [apply digits_aux_digits; lia|].
  split; [apply digits_aux_value; lia|].
  split; [apply digits_aux_head; lia|].
  apply digits_aux_length. lia.
Qed.

Lemma digit_prefix_digits (s : jsstr) : forallb is_digit s = true ->
  digit_prefix 10 s = map (fun c => c - 48) s.
Proof.
  induction s as [|c r IH]; intros H; [reflexivity|].
  cbn [forallb] in H. apply andb_prop in H as [Hc Hr].
  cbn [digit_prefix map]. unfold digit_val. rewrite Hc.
  apply is_digit_range in Hc.
  replace (c - 48 <? 10) with true by (symmetry; apply Z.ltb_lt; lia).
  rewrite IH by exact Hr. reflexivity.
Qed.

Lemma fold_digits (s : jsstr) (a : Z) :
  fold_left (fun acc d => acc * 10 + d) (map (fun c => c - 48) s) a =
  fold_left (fun acc c => acc * 10 + (c - 48)) s a.
Proof. revert a. induction s as [|c r IH]; intros a; [reflexivity|apply IH]. Qed.

(** [parseInt] after its sign: a run of decimal digits. *)
Lemma parseInt_radix10 (neg : bool) (s : jsstr) :
  s <> [] -> forallb is_digit s = true ->
  (let '(radix, s) := match s with
                      | c :: x :: r =>
                          if (c =? 48) && ((x =? 120) || (x =? 88)) then (16, r) else (10, s)
                      | _ => (10, s)
                      end in
   match digit_prefix radix s with
   | [] => JNaN
   | ds =>
       let v := round_double (fold_left (fun acc d => acc * radix + d) ds 0) in
       if neg then num_neg v else v
   end) =
  (if neg then num_neg (round_double (digits_value s)) else round_double (digits_value s)).
Proof.
  intros Hne Hd.
  assert (Hrad : match s with
                 | c :: x :: r =>
                     if (c =? 48) && ((x =? 120) || (x =? 88)) then (16, r) else (10, s)
                 | _ => (10, s)
                 end = (10, s)).
  { destruct s as [|c [|x r]]; [reflexivity|reflexivity|].
    cbn [forallb] in Hd. apply andb_prop in Hd as [_ Hd]. apply andb_prop in Hd as [Hx _].
    apply is_digit_range in Hx.
    replace (x =? 120) with false by (symmetry; apply Z.eqb_neq; lia).
    replace (x =? 88) with false by (symmetry; apply Z.eqb_neq; lia).
    rewrite andb_false_r. reflexivity. }
  rewrite Hrad. cbv beta iota zeta. rewrite digit_prefix_digits by exact Hd.
  remember (map (fun c => c - 48) s) as ds eqn:Eds.
  destruct ds as [|d0 ds']; [destruct s; [congruence|discriminate]|].
  rewrite Eds, fold_digits. reflexivity.
Qed.

Lemma parseInt_digit_string (s : jsstr) : s <> [] -> forallb is_digit s = true ->
  parseInt s = round_double (digits_value s).
Proof.
  intros Hne Hd. unfold parseInt.
  destruct s as [|c r] eqn:Es; [congruence|].
  assert (Hc : is_digit c = true) by (cbn in Hd; apply andb_prop in Hd; tauto).
  cbn [trim_start]. rewrite (is_space_digit c Hc).
  apply is_digit_range in Hc.
  replace (c =? 45) with false by (symmetry; apply Z.eqb_neq; lia).
  replace (c =? 43) with false by (symmetry; apply Z.eqb_neq; lia).
  subst s. pose proof (parseInt_radix10 false (c :: r) Hne Hd) as H.
  cbv beta iota zeta in H |- *. exact H.
Qed.

Lemma parseInt_minus_digits (s : jsstr) : s <> [] -> forallb is_digit s = true ->
  parseInt (45 :: s) = num_neg (round_double (digits_value s)).
Proof.
  intros Hne Hd. unfold parseInt. cbn [trim_start].
  change (is_space 45) with false. change (45 =? 45) with true. cbv iota.
  pose proof (parseInt_radix10 true s Hne Hd) as H. cbv beta iota zeta in H |- *. exact H.
Qed.

Lemma round_double_small (n : Z) : n < 2 ^ 53 -> round_double n = JFin n.
Proof. intros H. unfold round_double. apply Z.ltb_lt in H. rewrite H. reflexivity. Qed.

(** A value that rounds to a double below [2^53] is that double. *)
Lemma round_double_exact (v x : Z) : round_double v = JFin x -> x < 2 ^ 53 -> v = x.
Proof.
  unfold round_double. destruct (Z.ltb_spec v (2 ^ 53)) as [Hv|Hv].
  - intros H _. congruence.
  - cbv zeta.
    assert (He : 1 <= Z.log2 v - 52).
    { pose proof (Z.log2_le_mono _ _ Hv) as H. rewrite Z.log2_pow2 in H by lia. lia. }
    assert (Hm : 2 ^ 52 <= Z.shiftr v (Z.log2 v - 52)).
    { rewrite Z.shiftr_div_pow2 by lia.
      apply Z.div_le_lower_bound; [apply Z.pow_pos_nonneg; lia|].
      rewrite <- Z.pow_add_r by lia.
      replace (Z.log2 v - 52 + 52) with (Z.log2 v) by lia.
      apply Z.log2_spec. pose proof (Z.pow_pos_nonneg 2 53). lia. }
    assert (H2e : 2 <= 2 ^ (Z.log2 v - 52)).
    { change 2 with (2 ^ 1) at 1. apply Z.pow_le_mono_r; lia. }
    set (e := Z.log2 v - 52) in *. set (m := Z.shiftr v e) in *.
    intros H Hx.
    destruct (_ || _); destruct (2 ^ 1024 <=? _); try discriminate;
      injection H as <-; rewrite Z.shiftl_mul_pow2 in Hx by lia; nia.
Qed.

Lemma jsint_eqb_fin (a : jsint) (x : Z) : jsint_eqb a (JFin x) = true -> a = JFin x.
Proof. destruct a; cbn; try discriminate. intros H. apply Z.eqb_eq in H. congruence. Qed.

Lemma shortest_at_spec (x n k v : Z) : shortest_at x n k = Some v ->
  round_double v = JFin x /\
  (v = (x / 10 ^ (n - k)) * 10 ^ (n - k) \/ v = (x / 10 ^ (n - k) + 1) * 10 ^ (n - k)).
Proof.
  unfold shortest_at. cbv zeta.
  destruct (jsint_eqb (round_double (x / 10 ^ (n - k) * 10 ^ (n - k))) (JFin x)) eqn:E1;
  destruct (jsint_eqb (round_double ((x / 10 ^ (n - k) + 1) * 10 ^ (n - k))) (JFin x)) eqn:E2;
  try destruct (_ || _); intros H; try discriminate; injection H as <-;
  (split; [apply jsint_eqb_fin; assumption|tauto]).
Qed.

Lemma shortest_from_spec (x n v : Z) (ks : list Z) : shortest_from x n ks = Some v ->
  round_double v = JFin x /\ exists k, In k ks /\
  (v = (x / 10 ^ (n - k)) * 10 ^ (n - k) \/ v = (x / 10 ^ (n - k) + 1) * 10 ^ (n - k)).
Proof.
  induction ks as [|k r IH]; cbn [shortest_from]; [discriminate|].
  destruct (shortest_at x n k) as [w|] eqn:E.
  - intros H. injection H as <-. destruct (shortest_at_spec _ _ _ _ E) as [H1 H2].
    split; [exact H1|]. exists k. split; [left; reflexivity|exact H2].
  - intros H. destruct (IH H) as [H1 (k' & Hk & H2)].
    split; [exact H1|]. exists k'. split; [right; exact Hk|exact H2].
Qed.

Lemma shortest_value_small (x : Z) : x < 2 ^ 53 -> shortest_value x = x.
Proof.
  intros Hx. unfold shortest_value.
  destruct (shortest_from _ _ _) as [v|] eqn:E; [|reflexivity].
  apply shortest_from_spec in E as [E _]. exact (round_double_exact v x E Hx).
Qed.

Lemma pos_toString_small (x : Z) : x < 2 ^ 53 -> pos_toString x = Z_toString x.
Proof.
  intros Hx. unfold pos_toString. rewrite shortest_value_small by exact Hx.
  replace (x <? 10 ^ 21) with true; [reflexivity|].
  symmetry. apply Z.ltb_lt. eapply Z.lt_trans; [exact Hx|]. reflexivity.
Qed.

(** [parseInt] reads back what [Number::toString] prints, below [2^53]. *)
Lemma parse_print (n : Z) : - 2 ^ 53 < n < 2 ^ 53 ->
  parseInt (number_toString (JFin n)) = JFin n.
Proof.
  intros Hn. unfold number_toString.
  destruct (Z.eqb_spec n 0) as [->|H0]; [reflexivity|].
  destruct (Z.ltb_spec n 0) as [Hneg|Hpos].
  - rewrite pos_toString_small by lia.
    destruct (Z_toString_digits (- n) ltac:(lia)) as (Hd & Hv & (d & t & Et & _) & _).
    rewrite parseInt_minus_digits by (try rewrite Et; congruence).
    rewrite Hv, round_double_small by lia. cbn. f_equal. lia.
  - rewrite pos_toString_small by lia.
    destruct (Z_toString_digits n ltac:(lia)) as (Hd & Hv & (d & t & Et & _) & _).
    rewrite parseInt_digit_string by (try rewrite Et; congruence).
    rewrite Hv, round_double_small by lia. reflexivity.
Qed.

(** The candidates of [shortest_value] for [x] of [n] digits have [n]
    digits or one more. *)
Lemma shortest_value_lower (x : Z) : 0 < x ->
  10 ^ (Z.of_nat (List.length (Z_toString x)) - 1) <= shortest_value x.
Proof.
  intros Hx. destruct (Z_toString_digits x Hx) as (_ & _ & _ & Hlo & Hhi).
  set (n := Z.of_nat (List.length (Z_toString x))) in *.
  unfold shortest_value. fold n.
  destruct (shortest_from _ _ _) as [v|] eqn:E; [|exact Hlo].
  apply shortest_from_spec in E as [_ (k & Hk & Hv)].
  apply in_map_iff in Hk as (k' & <- & Hk'). apply in_seq in Hk'.
  assert (Hkn : 1 <= Z.of_nat k' <= n) by (rewrite <- (Z2Nat.id n) by lia; lia).
  set (k := Z.of_nat k') in *.
  assert (Hu : 0 < 10 ^ (n - k)) by (apply Z.pow_pos_nonneg; lia).
  assert (Hsplit : 10 ^ (n - 1) = 10 ^ (k - 1) * 10 ^ (n - k)).
  { rewrite <- Z.pow_add_r by lia. f_equal. lia. }
  assert (Hs : 10 ^ (k - 1) <= x / 10 ^ (n - k)).
  { apply Z.div_le_lower_bound; [exact Hu|]. lia. }
  destruct Hv as [-> | ->]; nia.
Qed.

Lemma strip_zeros_snoc (d : Z) (l : jsstr) : d <> 48 ->
  exists l', strip_zeros_rev (l ++ [d]) = l' ++ [d].
Proof.
  intros Hd. induction l as [|a r IH].
  - exists []. cbn. destruct (Z.eq_dec d 48) as [E|_]; [congruence|].
    destruct d as [|p|p]; try reflexivity.
    do 6 (destruct p as [p|p|]; try reflexivity). exfalso; apply Hd; reflexivity.
  - destruct IH as [l' E].
    destruct (Z.eq_dec a 48) as [->|Ha].
    + exists l'. exact E.
    + exists (a :: r). cbn [app strip_zeros_rev].
      destruct a as [|p|p]; try reflexivity.
      do 6 (destruct p as [p|p|]; try reflexivity). exfalso; apply Ha; reflexivity.
Qed.


Lemma parseInt_lead_digit (d c : Z) (rest : jsstr) :
  49 <= d <= 57 -> (c = 46 \/ c = 101) -> parseInt (d :: c :: rest) = JFin (d - 48).
Proof.
  intros Hd Hc. unfold parseInt. cbn [trim_start].
  assert (Hdd : is_digit d = true) by (apply is_digit_range; lia).
  rewrite (is_space_digit d Hdd).
  replace (d =? 45) with false by (symmetry; apply Z.eqb_neq; lia).
  replace (d =? 43) with false by (symmetry; apply Z.eqb_neq; lia).
  replace (d =? 48) with false by (symmetry; apply Z.eqb_neq; lia).
  cbn [andb]. cbn [digit_prefix]. unfold digit_val at 1. rewrite Hdd.
  replace (d - 48 <? 10) with true by (symmetry; apply Z.ltb_lt; lia).
  destruct Hc as [-> | ->]; cbn [digit_prefix digit_val is_digit is_lower is_upper];
    cbn; rewrite round_double_small by lia; reflexivity.
Qed.






(** ** The English-voice gate *)

Section ClassStar.
Variable inp : jsstr.
Variables (neg : bool) (p : Z -> bool).

Definition cls_at (i : nat) : bool :=
  match nth_error inp i with
  | Some d => xorb neg (class_mem false p d)
  | None => false
  end.

Definition k_eol : nat -> captures -> option (nat * captures) :=
  fun j cs => if Nat.eqb j (List.length inp) then Some (j, cs) else None.

Lemma star_loop_S (m : matcher) k f i cs :
  star_loop m k (S f) i cs =
  match m i cs (fun j cs' => if Nat.eqb j i then None else star_loop m k f j cs') with
  | Some x => Some x
  | None => k i cs
  end.
Proof. reflexivity. Qed.

Lemma mt_class ic i cs k :
  mt inp ic (RClass neg p) i cs k =
  match nth_error inp i with
  | Some d => if xorb neg (class_mem ic p d) then k (S i) cs else None
  | None => None
  end.
Proof. reflexivity. Qed.

Lemma star_class_eol (f i : nat) (cs : captures) :
  (List.length inp - i < f)%nat -> (i <= List.length inp)%nat ->
  (star_loop (mt inp false (RClass neg p)) k_eol f i cs <> None <->
   forall m, (i <= m < List.length inp)%nat -> cls_at m = true).
Proof.
  revert i cs. induction f as [|f IH]; intros i cs Hf Hi; [lia|].
  rewrite star_loop_S, mt_class. unfold cls_at at 1.
  destruct (nth_error inp i) as [d|] eqn:Hd.
  - assert (Hlt : (i < List.length inp)%nat).
    { apply nth_error_Some. rewrite Hd. discriminate. }
    destruct (xorb neg (class_mem false p d)) eqn:Hc.
    + rewrite (proj2 (Nat.eqb_neq (S i) i)) by lia.
      destruct (star_loop _ k_eol f (S i) cs) as [x|] eqn:Hs.
      * split; [intros _|congruence].
        assert (Hne : star_loop (mt inp false (RClass neg p)) k_eol f (S i) cs <> None)
          by congruence.
        pose proof (proj1 (IH (S i) cs ltac:(lia) ltac:(lia)) Hne) as Hall.
        clear Hne. rename Hall into Hne.
        intros m Hm. destruct (Nat.eq_dec m i) as [->|Hmi].
        { unfold cls_at. rewrite Hd. exact Hc. }
        apply Hne. lia.
      * unfold k_eol. rewrite (proj2 (Nat.eqb_neq i _)) by lia.
        split; [congruence|]. intros Hall.
        exfalso. apply (proj2 (IH (S i) cs ltac:(lia) ltac:(lia))); [|exact Hs].
        intros m Hm. apply Hall. lia.
    + unfold k_eol. rewrite (proj2 (Nat.eqb_neq i _)) by lia.
      split; [congruence|]. intros Hall.
      specialize (Hall i ltac:(lia)). unfold cls_at in Hall.
      rewrite Hd, Hc in Hall. discriminate.
  - apply nth_error_None in Hd.
    unfold k_eol. rewrite (proj2 (Nat.eqb_eq i _)) by lia.
    split; [intros _; intros m Hm; lia | discriminate].
Qed.
End ClassStar.


Lemma exec_from_bol (s : jsstr) (r : regex) (fuel i : nat) :
  (0 < i)%nat -> exec_from s false (RSeq RBol r) fuel i = None.
Proof.
  revert i. induction fuel as [|f IH]; intros i Hi; [reflexivity|].
  simpl. unfold match_at. simpl.
  destruct i; [lia|]. simpl. apply IH. lia.
Qed.

Lemma re_english_eq :
  re_english = RSeq RBol (RSeq (RPlus (RClass false english_char)) REol).
Proof. reflexivity. Qed.

Lemma match_at_english (c : Z) (v : jsstr) :
  match_at (c :: v) false re_english 0 =
  if english_char c
  then star_loop (mt (c :: v) false (RClass false english_char)) (k_eol (c :: v))
                 (S (List.length (c :: v) - 1)) 1 []
  else None.
Proof. reflexivity. Qed.

Lemma isEnglishVoice_spec (v : jsstr) :
  _isEnglishVoice v = true <-> v <> [] /\ forallb english_char v = true.
Proof.
  destruct v as [|c v].
  - split; [discriminate|]. intros [H _]. congruence.
  - unfold _isEnglishVoice, re_test.
    change (exec_from (c :: v) false re_english (S (List.length (c :: v))) 0)
      with (match match_at (c :: v) false re_english 0 with
            | Some (j, cs) => Some (0%nat, j, cs)
            | None => exec_from (c :: v) false re_english (List.length (c :: v)) 1
            end).
    rewrite match_at_english.
    assert (Hstar := star_class_eol (c :: v) false english_char
                        (S (List.length (c :: v) - 1)) 1 []).
    simpl forallb.
    destruct (english_char c) eqn:Hc; simpl andb.
    + destruct (star_loop _ _ _ 1 []) as [x|] eqn:Hs.
      * split; [intros _|destruct x; reflexivity]. split; [discriminate|].
        pose proof (proj1 (Hstar ltac:(simpl; lia) ltac:(simpl; lia)) ltac:(discriminate))
          as Hall.
        apply forallb_forall. intros y Hy.
        destruct (In_nth v y 0 Hy) as [m [Hm Hnth]].
        specialize (Hall (S m) ltac:(simpl; lia)). unfold cls_at in Hall. simpl in Hall.
        rewrite (nth_error_nth' v 0 Hm), Hnth in Hall. exact Hall.
      * rewrite re_english_eq, exec_from_bol by lia.
        split; [discriminate|]. intros [_ Hall]. exfalso.
        apply (proj2 (Hstar ltac:(simpl; lia) ltac:(simpl; lia))); [|reflexivity].
        intros m Hm. unfold cls_at. destruct m as [|m]; [lia|]. simpl.
        simpl in Hm.
        rewrite (nth_error_nth' v (n:=m) 0 ltac:(lia)).
        apply forallb_forall with (x := nth m v 0) in Hall; [exact Hall|].
        apply nth_In. lia.
    + rewrite re_english_eq, exec_from_bol by lia.
      split; [discriminate|]. intros [_ H]. discriminate.
Qed.


(** ** Facts about [String.prototype.replace] *)

Lemma jsstr_eqb_neq (a b : jsstr) : a <> b -> jsstr_eqb a b = false.
Proof. intros H. unfold jsstr_eqb. destruct (list_eq_dec Z.eq_dec a b); congruence. Qed.

Lemma jsstr_eqb_refl (a : jsstr) : jsstr_eqb a a = true.
Proof. unfold jsstr_eqb. destruct (list_eq_dec Z.eq_dec a a); congruence. Qed.

Lemma in_substr (s : jsstr) (i j : nat) (c : Z) :
  In c (substr s i j) -> exists m, (i <= m < j)%nat /\ nth_error s m = Some c.
Proof.
  unfold substr. intros H. apply In_nth_error in H as [k Hk].
  rewrite nth_error_firstn in Hk.
  destruct (Nat.ltb_spec k (j - i)); [|discriminate].
  rewrite nth_error_skipn in Hk. exists (i + k)%nat. split; [lia|exact Hk].
Qed.

Lemma in_skipn_at (s : jsstr) (i : nat) (c : Z) :
  In c (skipn i s) -> exists m, (i <= m)%nat /\ nth_error s m = Some c.
Proof.
  intros H. apply In_nth_error in H as [k Hk].
  rewrite nth_error_skipn in Hk. exists (i + k)%nat. split; [lia|exact Hk].
Qed.

Lemma in_firstn_in (n : nat) (s : jsstr) (c : Z) : In c (firstn n s) -> In c s.
Proof.
  intros H. apply In_nth_error in H as [k Hk].
  rewrite nth_error_firstn in Hk. destruct (Nat.ltb k n); [|discriminate].
  eapply nth_error_In; exact Hk.
Qed.

Lemma exec_from_some (s : jsstr) (ic : bool) (r : regex) (fuel i a b : nat) (cs : captures) :
  exec_from s ic r fuel i = Some (a, b, cs) ->
  (i <= a)%nat /\ match_at s ic r a = Some (b, cs) /\
  (forall m, (i <= m < a)%nat -> match_at s ic r m = None).
Proof.
  revert i. induction fuel as [|f IH]; intros i H; [discriminate|].
  simpl in H. destruct (match_at s ic r i) as [[j cs']|] eqn:Hm.
  - injection H as <- <- <-. split; [lia|split; [exact Hm|intros; lia]].
  - destruct (IH (S i) H) as (Hle & Hab & Hbefore). split; [lia|split; [exact Hab|]].
    intros m Hmr. destruct (Nat.eq_dec m i) as [->|Hne]; [exact Hm|].
    apply Hbefore. lia.
Qed.

Lemma exec_from_none (s : jsstr) (ic : bool) (r : regex) (fuel i : nat) :
  exec_from s ic r fuel i = None ->
  forall m, (i <= m < i + fuel)%nat -> match_at s ic r m = None.
Proof.
  revert i. induction fuel as [|f IH]; intros i H m Hm; [lia|].
  simpl in H. destruct (match_at s ic r i) as [[j cs']|] eqn:Hmi; [discriminate|].
  destruct (Nat.eq_dec m i) as [->|Hne]; [exact Hmi|].
  apply (IH (S i) H). lia.
Qed.

(** A replacement by a constant only keeps characters of the input or of
    the constant. *)
Lemma replace_const_chars (ic : bool) (r : regex) (t s : jsstr) (c : Z) :
  In c (replace_g ic r (const_rep t) s) -> In c s \/ In c t.
Proof.
  unfold replace_g. generalize (S (List.length s)) 0%nat.
  intros fuel. induction fuel as [|f IH]; intros last H; cbn [replace_all_from] in H.
  - left. apply in_skipn_at in H as [m [_ Hm]]. eapply nth_error_In; exact Hm.
  - destruct (exec_from s ic r (S (List.length s - last)) last) as [[[a b] cs]|].
    + apply in_app_or in H as [H|H].
      { left. apply in_substr in H as [m [_ Hm]]. eapply nth_error_In; exact Hm. }
      apply in_app_or in H as [H|H]; [right; exact H|].
      destruct (Nat.eqb a b).
      * apply in_app_or in H as [H|H]; [|exact (IH _ H)].
        left. apply in_firstn_in in H. apply in_skipn_at in H as [m [_ Hm]].
        eapply nth_error_In; exact Hm.
      * exact (IH _ H).
    + left. apply in_skipn_at in H as [m [_ Hm]]. eapply nth_error_In; exact Hm.
Qed.

(** ** Patterns that need a character *)

Lemma jsstr_eqb_true (a b : jsstr) : jsstr_eqb a b = true -> a = b.
Proof. unfold jsstr_eqb. destruct (list_eq_dec Z.eq_dec a b); congruence. Qed.

Lemma mt_fail_cont (inp : jsstr) (ic : bool) (r : regex) : forall i cs k,
  (forall j cs', k j cs' = None) -> mt inp ic r i cs k = None.
Proof.
  induction r as [c|neg p|a IHa b IHb|a IHa b IHb|a IHa|n a IHa| | | |];
    intros i cs k Hk; cbn [mt].
  - destruct (nth_error inp i) as [d|]; [|reflexivity].
    destruct (char_eq ic c d); [apply Hk|reflexivity].
  - destruct (nth_error inp i) as [d|]; [|reflexivity].
    destruct (xorb neg (class_mem ic p d)); [apply Hk|reflexivity].
  - apply IHa. intros j cs'. apply IHb. exact Hk.
  - rewrite IHa by exact Hk. apply IHb. exact Hk.
  - generalize (S (List.length inp - i)) as fuel. intros fuel. revert i cs.
    induction fuel as [|f IHf]; intros i cs; cbn [star_loop]; [apply Hk|].
    rewrite IHa; [apply Hk|]. intros j cs'. destruct (Nat.eqb j i); [reflexivity|apply IHf].
  - apply IHa. intros j cs'. apply Hk.
  - destruct (xorb _ _); [apply Hk|reflexivity].
  - destruct (Nat.eqb i 0); [apply Hk|reflexivity].
  - destruct (Nat.eqb i _); [apply Hk|reflexivity].
  - apply Hk.
Qed.

Lemma mt_needs (inp : jsstr) (ic : bool) (P : Z -> Prop) (r : regex) :
  needs ic P r -> (forall m d, nth_error inp m = Some d -> ~ P d) ->
  forall i cs k, mt inp ic r i cs k = None.
Proof.
  intros Hn HP. induction Hn as [c Hc|p Hp|a b _ IH|a b _ IH|a b _ IH1 _ IH2|n a _ IH];
    intros i cs k; cbn [mt].
  - destruct (nth_error inp i) as [d|] eqn:E; [|reflexivity].
    destruct (char_eq ic c d) eqn:Ec; [|reflexivity].
    exfalso. exact (HP i d E (Hc d Ec)).
  - destruct (nth_error inp i) as [d|] eqn:E; [|reflexivity].
    cbn [xorb]. destruct (class_mem ic p d) eqn:Ec; [|reflexivity].
    exfalso. exact (HP i d E (Hp d Ec)).
  - apply IH.
  - apply mt_fail_cont. intros j cs'. apply IH.
  - rewrite IH1. apply IH2.
  - apply IH.
Qed.

Lemma exec_from_needs (s : jsstr) (ic : bool) (P : Z -> Prop) (r : regex) (fuel i : nat) :
  needs ic P r -> (forall m d, nth_error s m = Some d -> ~ P d) ->
  exec_from s ic r fuel i = None.
Proof.
  intros Hn HP. revert i. induction fuel as [|f IH]; intros i; cbn [exec_from]; [reflexivity|].
  unfold match_at. rewrite (mt_needs s ic P r Hn HP). apply IH.
Qed.

Lemma replace_g_needs (ic : bool) (P : Z -> Prop) (r : regex) (f : replacer) (s : jsstr) :
  needs ic P r -> (forall m d, nth_error s m = Some d -> ~ P d) ->
  replace_g ic r f s = s.
Proof.
  intros Hn HP. unfold replace_g. cbn [replace_all_from].
  rewrite (exec_from_needs s ic P r _ _ Hn HP). reflexivity.
Qed.

Lemma replace_g_exn_needs (ic : bool) (P : Z -> Prop) (r : regex) (f : replacer_exn)
    (s : jsstr) :
  needs ic P r -> (forall m d, nth_error s m = Some d -> ~ P d) ->
  replace_g_exn ic r f s = Some s.
Proof.
  intros Hn HP. unfold replace_g_exn. cbn [replace_all_from_exn].
  rewrite (exec_from_needs s ic P r _ _ Hn HP). reflexivity.
Qed.

Lemma class_digit (ic : bool) (d : Z) : class_mem ic is_digit d = true -> is_digit d = true.
Proof.
  unfold class_mem. destruct ic; [|tauto].
  unfold canon. destruct (is_lower d) eqn:El; unfold is_lower, is_upper, is_digit in *;
  repeat match goal with
         | |- context [?a <=? ?b] => destruct (Z.leb_spec a b)
         | H : context [?a <=? ?b] |- _ => destruct (Z.leb_spec a b)
         end; simpl in *; intros Hm; first [reflexivity | discriminate | exfalso; lia].
Qed.

Lemma needs_digit (ic : bool) : needs ic digit_P RDigit.
Proof. apply needs_class. intros d H. apply (class_digit ic d H). Qed.

Create HintDb needs_db.
#[local] Hint Constructors needs : needs_db.
#[local] Hint Resolve needs_digit : needs_db.

Ltac needs_digit_pattern :=
  cbv [re_waves re_ordinal re_xnum re_percent re_dash3 re_nxn re_nx_words re_nx_word
       re_int RCat RPlus];
  eauto 12 with needs_db.

Lemma processNumberFormats_no_digit (s : jsstr) :
  (forall m d, nth_error s m = Some d -> ~ digit_P d) ->
  processNumberFormats s = Some s.
Proof.
  intros H. unfold processNumberFormats, replacements. cbn [fold_left].
  rewrite (replace_g_exn_needs true digit_P re_waves _ s) by (needs_digit_pattern || exact H).
  rewrite (replace_g_exn_needs true digit_P re_ordinal _ s) by (needs_digit_pattern || exact H).
  rewrite (replace_g_exn_needs true digit_P re_xnum _ s) by (needs_digit_pattern || exact H).
  rewrite (replace_g_exn_needs false digit_P re_percent _ s) by (needs_digit_pattern || exact H).
  rewrite (replace_g_exn_needs false digit_P re_dash3 _ s) by (needs_digit_pattern || exact H).
  rewrite (replace_g_exn_needs false digit_P re_nxn _ s) by (needs_digit_pattern || exact H).
  rewrite (replace_g_exn_needs false digit_P re_nx_words _ s) by (needs_digit_pattern || exact H).
  rewrite (replace_g_exn_needs false digit_P re_nx_word _ s) by (needs_digit_pattern || exact H).
  apply (replace_g_exn_needs false digit_P re_int _ s); [needs_digit_pattern|exact H].
Qed.

Lemma needs_lit_eq (c : Z) : needs false (fun d => d = c) (RLit c).
Proof.
  apply needs_lit. intros d H. unfold char_eq in H. apply Z.eqb_eq in H. congruence.
Qed.

(** C5 (amended): there is no language parameter and no universal symbol
    pass.  The expansion is applied exactly when the voice name is a
    non-empty string of ASCII letters and white space (and the text is not
    empty); for every other voice name the text is returned unchanged.
    For such an English voice, a text without digits, [+] or [(] only has
    its words AoE turned into AOE: every other character, underscores,
    arrows and white space included, is kept. *)
Theorem convertNumbersToEnglish_gate :
  (forall v, _isEnglishVoice v = true <-> v <> [] /\ forallb english_char v = true) /\
  (forall text v, _isEnglishVoice v = false -> _convertNumbersToEnglish text v = Some text) /\
  (forall text v, text <> [] -> _isEnglishVoice v = true ->
     _convertNumbersToEnglish text v = english_expansion text) /\
  (forall text v, _isEnglishVoice v = true ->
     forallb (fun c => negb (is_digit c || (c =? 43) || (c =? 40))) text = true ->
     _convertNumbersToEnglish text v =
       Some (replace_g false re_aoe (const_rep (js "AOE")) text)).
Proof.
  split; [exact isEnglishVoice_spec|split; [|split]].
  - intros text v Hv. unfold _convertNumbersToEnglish.
    destruct (jsstr_eqb text []); [reflexivity|].
    rewrite Hv, orb_true_r. reflexivity.
  - intros text v Ht Hv. unfold _convertNumbersToEnglish.
    unfold jsstr_eqb.
    destruct (list_eq_dec Z.eq_dec text []) as [E|_]; [congruence|].
    destruct (list_eq_dec Z.eq_dec v []) as [E|_].
    { subst v. discriminate. }
    rewrite Hv. cbv [orb negb]. unfold english_expansion. reflexivity.
  - intros text v Hv Hs.
    assert (Hc : forall c, In c text -> is_digit c = false /\ c <> 43 /\ c <> 40).
    { intros c Hin. rewrite forallb_forall in Hs. specialize (Hs c Hin).
      destruct (is_digit c), (Z.eqb_spec c 43), (Z.eqb_spec c 40); try discriminate.
      repeat split; assumption. }
    unfold _convertNumbersToEnglish.
    destruct (jsstr_eqb text []) eqn:Et.
    { apply jsstr_eqb_true in Et. subst text. reflexivity. }
    assert (Hv' : jsstr_eqb v [] = false).
    { destruct (jsstr_eqb v []) eqn:E; [|reflexivity].
      apply jsstr_eqb_true in E. subst v. discriminate. }
    rewrite Hv', Hv. cbv [orb negb].
    rewrite (replace_g_needs false (fun d => d = 43) (RLit 43) _ text (needs_lit_eq 43)).
    2:{ intros m d Hm ->. apply nth_error_In in Hm. apply Hc in Hm. tauto. }
    set (t := replace_g false re_aoe (const_rep (js "AOE")) text).
    assert (Ht : forall c, In c t -> is_digit c = false /\ c <> 40).
    { intros c Hin. apply replace_const_chars in Hin as [Hin|Hin].
      - apply Hc in Hin. tauto.
      - cbn in Hin. repeat destruct Hin as [<-|Hin]; try (split; [reflexivity|discriminate]).
        destruct Hin. }
    rewrite (replace_g_exn_needs false (fun d => d = 40) re_paren paren_rep t).
    2:{ unfold re_paren, RCat. apply needs_seq_l, needs_lit_eq. }
    2:{ intros m d Hm ->. apply nth_error_In in Hm. apply Ht in Hm. tauto. }
    apply processNumberFormats_no_digit.
    intros m d Hm Hd. apply nth_error_In in Hm. apply Ht in Hm. unfold digit_P in Hd.
    destruct Hm as [Hm _]. congruence.
Qed.

(** C5, counterexample: the gate is on the voice name, not on an "en"
    locale ("en-US" does not expand, "Kamisato" does); no voice gets a
    symbol pass (underscores, arrows and repeated or outer blanks are kept
    for a non-English and for an English voice); and the blanks inside a
    matched number pattern go with the pattern. *)
Lemma convertNumbersToEnglish_no_language_gate :
  _convertNumbersToEnglish (js "deal 23 damage") (js "en-US") = Some (js "deal 23 damage") /\
  _convertNumbersToEnglish (js "deal 23 damage") (js "Kamisato") =
    Some (js "deal twenty three damage") /\
  _convertNumbersToEnglish (js " a_b  c ") (js "en") = Some (js " a_b  c ") /\
  _convertNumbersToEnglish (js " a_b  c ") (js "fr-FR") = Some (js " a_b  c ") /\
  _convertNumbersToEnglish (js " a_b  c -> d ") (js "Kamisato") = Some (js " a_b  c -> d ") /\
  _convertNumbersToEnglish (js "1  -  2  -  3") (js "Kamisato") =
    Some (js "one dash two dash three").
Proof. vm_compute. repeat split. Qed.


Lemma match_at_class (s : jsstr) (P : Z -> bool) (m : nat) :
  match_at s false (RClass false P) m =
  match nth_error s m with
  | Some d => if P d then Some (S m, []) else None
  | None => None
  end.
Proof. unfold match_at. simpl. destruct (nth_error s m); reflexivity. Qed.

(** Replacing a one-character class by a constant leaves no character of
    the class behind, except those of the constant. *)
Lemma replace_class_removes (P : Z -> bool) (t s : jsstr) (c : Z) :
  In c (replace_g false (RClass false P) (const_rep t) s) -> P c = true -> In c t.
Proof.
  unfold replace_g. intros H HP.
  assert (Hf : (List.length s - 0 < S (List.length s))%nat) by lia.
  revert H Hf. generalize (S (List.length s)) 0%nat.
  intros fuel. induction fuel as [|f IH]; intros last H Hf; [lia|].
  cbn [replace_all_from] in H.
  destruct (exec_from s false (RClass false P) (S (List.length s - last)) last)
    as [[[a b] cs]|] eqn:He.
  - apply exec_from_some in He as (Hle & Hab & Hbefore).
    rewrite match_at_class in Hab.
    destruct (nth_error s a) as [d|] eqn:Hd; [|discriminate].
    destruct (P d); [|discriminate]. injection Hab as <- <-.
    assert (Ha : (a < List.length s)%nat).
    { apply nth_error_Some. congruence. }
    apply in_app_or in H as [H|H].
    { exfalso. apply in_substr in H as [m [Hm Hc]].
      specialize (Hbefore m Hm). rewrite match_at_class, Hc, HP in Hbefore.
      discriminate. }
    apply in_app_or in H as [H|H]; [exact H|].
    rewrite (proj2 (Nat.eqb_neq a (S a))) in H by lia.
    apply (IH (S a) H). lia.
  - exfalso. apply in_skipn_at in H as [m [Hm Hc]].
    assert (Hlt : (m < List.length s)%nat).
    { apply nth_error_Some. congruence. }
    pose proof (exec_from_none _ _ _ _ _ He m ltac:(lia)) as Hn.
    rewrite match_at_class, Hc, HP in Hn. discriminate.
Qed.

(** ** Cache paths *)

Import VoiceCache.

Lemma textToFileName_no_slash (text : jsstr) : ~ In 47 (_textToFileName text).
Proof.
  unfold _textToFileName.
  set (p2 := replace_g false re_unsafe (const_rep (js "_"))
               (replace_g false re_punct (const_rep []) (trim text))).
  assert (H2 : ~ In 47 p2).
  { intros H. apply replace_class_removes in H; [|reflexivity].
    simpl in H. lia. }
  assert (H3 : ~ In 47 (replace_g false (RPlus RSpace) (const_rep (js "_")) p2)).
  { intros H. apply replace_const_chars in H as [H|H]; [exact (H2 H)|simpl in H; lia]. }
  assert (H4 : ~ In 47 (replace_g false re_underscores (const_rep (js "_"))
                  (replace_g false (RPlus RSpace) (const_rep (js "_")) p2))).
  { intros H. apply replace_const_chars in H as [H|H]; [exact (H3 H)|simpl in H; lia]. }
  set (p5 := replace_g false re_edge_underscore (const_rep []) _).
  assert (H5 : ~ In 47 p5).
  { intros H. apply replace_const_chars in H as [H|H]; [exact (H4 H)|exact H]. }
  destruct (100 <? Z.of_nat (List.length p5))%Z.
  - intros H. apply in_firstn_in in H. exact (H5 H).
  - destruct p5 as [|c r] eqn:E.
    + simpl. intros H. repeat (destruct H as [H|H]; [lia|]). exact H.
    + exact H5.
Qed.



Lemma split_sep_app (a b : jsstr) :
  split_sep (a ++ 47 :: b) = split_sep a ++ split_sep b.
Proof.
  induction a as [|c a IH]; [reflexivity|].
  simpl. rewrite IH.
  destruct (c =? 47); [reflexivity|].
  destruct (split_sep a) as [|x xs] eqn:E.
  - destruct a; simpl in E; [discriminate|].
    destruct (z =? 47); [discriminate|]. destruct (split_sep a); discriminate.
  - reflexivity.
Qed.

Lemma split_sep_plain (x : jsstr) : ~ In 47 x -> split_sep x = [x].
Proof.
  induction x as [|c x IH]; intros H; [reflexivity|].
  simpl. rewrite IH by (intros H'; apply H; right; exact H').
  rewrite (proj2 (Z.eqb_neq c 47)); [reflexivity|].
  intros ->. apply H. left. reflexivity.
Qed.

Lemma split_join (L : list jsstr) :
  L <> [] -> Forall (fun x => ~ In 47 x) L -> split_sep (join_sep L) = L.
Proof.
  induction L as [|x L IH]; intros Hne HL; [congruence|].
  inversion HL as [|? ? Hx HL']; subst.
  destruct L as [|y L].
  - simpl. apply split_sep_plain. exact Hx.
  - change (join_sep (x :: y :: L)) with (x ++ 47 :: join_sep (y :: L)).
    rewrite split_sep_app, split_sep_plain by exact Hx.
    rewrite IH by (discriminate || exact HL'). reflexivity.
Qed.

Lemma join_sep_cons_app (x : jsstr) (L xs : list jsstr) :
  fold_left (fun acc y => acc ++ [47] ++ y) xs (join_sep (x :: L)) = join_sep (x :: L ++ xs).
Proof.
  revert L. induction xs as [|y xs IH]; intros L.
  - rewrite app_nil_r. reflexivity.
  - cbn [fold_left].
    replace (join_sep (x :: L) ++ [47] ++ y) with (join_sep (x :: L ++ [y])).
    + rewrite IH, <- app_assoc. reflexivity.
    + clear IH. revert x. induction L as [|z L IHL]; intros x; [reflexivity|].
      change (join_sep (x :: (z :: L) ++ [y])) with (x ++ [47] ++ join_sep (z :: L ++ [y])).
      rewrite IHL. change (join_sep (x :: z :: L)) with (x ++ [47] ++ join_sep (z :: L)).
      rewrite !app_assoc. reflexivity.
Qed.

Lemma push_plain (st : list jsstr) (x : jsstr) :
  plain_seg x -> push_seg false st x = x :: st.
Proof.
  intros (H1 & _ & H3 & H4). unfold push_seg.
  rewrite !jsstr_eqb_neq by assumption. reflexivity.
Qed.

Lemma fold_push_plain (L : list jsstr) (st : list jsstr) :
  Forall plain_seg L -> fold_left (push_seg false) L st = rev L ++ st.
Proof.
  revert st. induction L as [|x L IH]; intros st HL; [reflexivity|].
  inversion HL; subst. simpl. rewrite push_plain by assumption.
  rewrite IH by assumption. rewrite <- app_assoc. reflexivity.
Qed.

Lemma join_sep_last (L : list jsstr) (x : jsstr) :
  exists a, join_sep (L ++ [x]) = a ++ x.
Proof.
  induction L as [|y L [a IH]].
  - exists []. reflexivity.
  - destruct L as [|z L].
    + exists (y ++ [47]). simpl. rewrite <- app_assoc. reflexivity.
    + exists (y ++ [47] ++ a).
      change (join_sep ((y :: z :: L) ++ [x])) with (y ++ [47] ++ join_sep ((z :: L) ++ [x])).
      rewrite IH, !app_assoc. reflexivity.
Qed.

Lemma no_trailing_sep (a x : jsstr) :
  x <> [] -> ~ In 47 x ->
  match rev (a ++ x) with 47 :: _ => true | _ => false end = false.
Proof.
  intros Hne Hx. rewrite rev_app_distr.
  destruct (rev x) as [|c r] eqn:E.
  - apply (f_equal (@rev Z)) in E. rewrite rev_involutive in E. simpl in E. congruence.
  - simpl. destruct (Z.eqb_spec c 47) as [->|Hc].
    + exfalso. apply Hx. apply in_rev. rewrite E. left. reflexivity.
    + destruct c; try reflexivity. destruct p; try reflexivity;
        repeat (destruct p; try reflexivity); exfalso; lia.
Qed.

Lemma fold_join_cons (c : Z) (b : jsstr) (xs : list jsstr) :
  fold_left (fun acc y => acc ++ [47] ++ y) xs (c :: b) =
  c :: fold_left (fun acc y => acc ++ [47] ++ y) xs b.
Proof.
  revert b. induction xs as [|y xs IH]; intros b; [reflexivity|].
  cbn [fold_left]. rewrite <- IH. reflexivity.
Qed.

Lemma split_sep_seps (n : nat) (J : jsstr) :
  split_sep (repeat 47 n ++ J) = repeat [] n ++ split_sep J.
Proof.
  induction n as [|n IH]; [reflexivity|]. simpl. rewrite IH. reflexivity.
Qed.

Lemma fold_push_empties (n : nat) (st : list jsstr) :
  fold_left (push_seg false) (repeat [] n) st = st.
Proof. induction n as [|n IH]; [reflexivity|]. simpl. exact IH. Qed.

Lemma normalize_abs_join (n : nat) (L : list jsstr) :
  L <> [] -> Forall plain_seg L ->
  path_normalize (47 :: repeat 47 n ++ join_sep L) = 47 :: join_sep L.
Proof.
  intros Hne HL.
  assert (HL47 : Forall (fun x => ~ In 47 x) L).
  { eapply Forall_impl; [|exact HL]. intros x (_ & H & _). exact H. }
  unfold path_normalize. cbv zeta. rewrite Z.eqb_refl.
  change (split_sep (47 :: repeat 47 n ++ join_sep L))
    with (split_sep (repeat 47 (S n) ++ join_sep L)).
  rewrite split_sep_seps, split_join by assumption.
  rewrite fold_left_app, fold_push_empties, fold_push_plain by assumption.
  rewrite app_nil_r, rev_involutive.
  destruct (exists_last Hne) as [L' [xl EL]].
  assert (Hxl : plain_seg xl).
  { rewrite EL in HL. apply Forall_app in HL as [_ HL]. inversion HL; assumption. }
  destruct (join_sep_last L' xl) as [a Ha].
  rewrite <- EL in Ha.
  assert (Htr : match rev (47 :: repeat 47 n ++ join_sep L) with
                | 47 :: _ => true | _ => false end = false).
  { rewrite Ha. change (47 :: repeat 47 n ++ a ++ xl) with ([47] ++ repeat 47 n ++ a ++ xl).
    rewrite !app_assoc. destruct Hxl as (H1 & H2 & _). apply no_trailing_sep; assumption. }
  rewrite Htr. simpl negb.
  destruct (join_sep L) as [|c r] eqn:EJ; [|reflexivity].
  exfalso. destruct Hxl as (H1 & _). destruct a; destruct xl; simpl in Ha; congruence.
Qed.

Lemma path_join_abs (segs xs : list jsstr) :
  Forall plain_seg segs -> Forall plain_seg xs -> xs <> [] ->
  path_join (abs_path segs :: xs) = abs_path (segs ++ xs).
Proof.
  intros Hs Hx Hne. unfold path_join.
  assert (Hf : filter (fun a => negb (jsstr_eqb a [])) xs = xs).
  { induction xs as [|x xs IH]; [reflexivity|].
    inversion Hx as [|? ? Hp Hx']; subst. simpl.
    rewrite jsstr_eqb_neq by (destruct Hp; assumption). simpl.
    destruct xs as [|y xs]; [reflexivity|]. rewrite IH by (assumption || discriminate).
    reflexivity. }
  unfold abs_path at 1. simpl filter. rewrite Hf.
  rewrite fold_join_cons.
  destruct segs as [|s1 segs].
  - destruct xs as [|x1 xs]; [congruence|].
    cbn [fold_left].
    change (join_sep [] ++ [47] ++ x1) with (47 :: join_sep [x1]).
    rewrite fold_join_cons, join_sep_cons_app. simpl app.
    apply (normalize_abs_join 1 (x1 :: xs)); [discriminate|exact Hx].
  - rewrite join_sep_cons_app.
    apply (normalize_abs_join 0 (s1 :: segs ++ xs)); [discriminate|].
    change (s1 :: segs ++ xs) with ((s1 :: segs) ++ xs).
    apply Forall_app. split; assumption.
Qed.

Lemma plain_seg_mp3 (text : jsstr) : plain_seg (_textToFileName text ++ js ".mp3").
Proof.
  set (f := _textToFileName text).
  assert (Hf : ~ In 47 f) by apply textToFileName_no_slash.
  assert (Hlen : (4 <= List.length (f ++ js ".mp3"))%nat).
  { rewrite length_app. simpl. lia. }
  split; [|split; [|split]].
  - intros E. rewrite E in Hlen. simpl in Hlen. lia.
  - intros H. apply in_app_or in H as [H|H]; [exact (Hf H)|].
    simpl in H. lia.
  - intros E. rewrite E in Hlen. simpl in Hlen. lia.
  - intros E. rewrite E in Hlen. simpl in Hlen. lia.
Qed.

Ltac solve_plain :=
  split; [discriminate|split; [intros H; simpl in H; lia|split; discriminate]].

Lemma plain_cacheDir : plain_seg cacheDir.
Proof. solve_plain. Qed.

Lemma actual_cache_path_abs (segs : list jsstr) :
  Forall plain_seg segs -> _getActualCachePath (abs_path segs) = abs_path (segs ++ [cacheDir]).
Proof.
  intros Hsegs. unfold _getActualCachePath.
  apply path_join_abs; [exact Hsegs|constructor; [exact plain_cacheDir|constructor]|discriminate].
Qed.

(** C4 (amended): for a normalized absolute root directory and a voice
    name that is a single path segment, the cache file of a text lives at
    <root>/tts_cache/<voiceName>/<file name>.mp3: two levels below the cache
    root (the voice directory and the file), no language level, and the
    extension is .mp3. *)
Theorem cache_file_path_layout (segs : list jsstr) (text voiceName : jsstr)
  (Hsegs : Forall plain_seg segs) (Hv : plain_seg voiceName) :
  _getActualCachePath (abs_path segs) = abs_path (segs ++ [cacheDir]) /\
  _getCacheFilePath (abs_path segs) text voiceName =
    abs_path (segs ++ [cacheDir; voiceName; _textToFileName text ++ js ".mp3"]) /\
  plain_seg (_textToFileName text ++ js ".mp3").
Proof.
  assert (Hc := actual_cache_path_abs segs Hsegs).
  split; [exact Hc|split; [|apply plain_seg_mp3]].
  unfold _getCacheFilePath. rewrite Hc.
  rewrite path_join_abs.
  - rewrite <- app_assoc. reflexivity.
  - apply Forall_app. split; [exact Hsegs|constructor; [exact plain_cacheDir|constructor]].
  - constructor; [exact Hv|constructor; [apply plain_seg_mp3|constructor]].
  - discriminate.
Qed.

Lemma cache_file_path_layout_witness :
  Forall plain_seg [js "mods"; js "guide"] /\ plain_seg (js "Kamisato") /\
  _getCacheFilePath (abs_path [js "mods"; js "guide"]) (js "hi") (js "Kamisato") =
    abs_path ([js "mods"; js "guide"] ++
              [cacheDir; js "Kamisato"; _textToFileName (js "hi") ++ js ".mp3"]).
Proof.
  assert (Hs : Forall plain_seg [js "mods"; js "guide"]).
  { apply Forall_cons; [solve_plain|apply Forall_cons; [solve_plain|apply Forall_nil]]. }
  assert (Hv : plain_seg (js "Kamisato")) by solve_plain.
  split; [exact Hs|split; [exact Hv|]].
  exact (proj1 (proj2 (cache_file_path_layout _ (js "hi") _ Hs Hv))).
Defined.

(** C4, counterexample: the path of "hi" for the voice "Kamisato" under
    /mods/guide has the segments mods/guide/tts_cache/Kamisato/hi.mp3: the
    voice directory sits right under the cache root and the file ends in
    .mp3, not .audio. *)
Lemma cache_file_path_no_language_level :
  _getCacheFilePath (js "/mods/guide") (js "hi") (js "Kamisato") =
    js "/mods/guide/tts_cache/Kamisato/hi.mp3" /\
  split_sep (_getCacheFilePath (js "/mods/guide") (js "hi") (js "Kamisato")) =
    [[]; js "mods"; js "guide"; js "tts_cache"; js "Kamisato"; js "hi.mp3"] /\
  jsstr_eqb (lastn_of (_getCacheFilePath (js "/mods/guide") (js "hi") (js "Kamisato")) 6)
            (js ".audio") = false.
Proof. vm_compute. repeat split. Qed.

(** ** The recursion of [generateOrdinal] *)

Lemma round_double_finite (n : Z) : 0 <= n < 2 ^ 1023 -> exists y, round_double n = JFin y.
Proof.
  intros Hn. unfold round_double.
  destruct (Z.ltb_spec n (2 ^ 53)) as [_|Hbig]; [eexists; reflexivity|].
  cbv zeta.
  assert (Hl : 53 <= Z.log2 n).
  { rewrite <- (Z.log2_pow2 53) by lia. apply Z.log2_le_mono. exact Hbig. }
  set (e := Z.log2 n - 52).
  assert (He : 0 <= e) by lia.
  rewrite !Z.shiftl_mul_pow2, Z.shiftr_div_pow2 by lia.
  assert (Hm : n / 2 ^ e * 2 ^ e <= n).
  { rewrite Z.mul_comm. apply Z.mul_div_le. apply Z.pow_pos_nonneg; lia. }
  assert (Hpe : 2 ^ e <= n).
  { eapply Z.le_trans; [|apply (Z.log2_spec n); lia]. apply Z.pow_le_mono_r; lia. }
  match goal with |- context [if ?b then n / 2 ^ e + 1 else n / 2 ^ e] =>
    destruct b end;
  [destruct (Z.leb_spec (2 ^ 1024) ((n / 2 ^ e + 1) * 2 ^ e))
  |destruct (Z.leb_spec (2 ^ 1024) (n / 2 ^ e * 2 ^ e))];
  try (eexists; reflexivity); exfalso.
  - assert (2 ^ 1024 = 2 * 2 ^ 1023) by (rewrite <- Z.pow_succ_r; lia). nia.
  - lia.
Qed.

Lemma pos_toString_shape (x : Z) : 0 < x ->
  (exists v, 0 < v < 10 ^ 21 /\ pos_toString x = Z_toString v) \/
  (exists d c rest, pos_toString x = d :: c :: rest /\ 49 <= d <= 57 /\ (c = 46 \/ c = 101)).
Proof.
  intros Hx.
  pose proof (shortest_value_lower x Hx) as Hv.
  assert (Hv0 : 0 < shortest_value x).
  { destruct (Z_toString_digits x Hx) as (_ & _ & (d & t & Et & _) & _).
    rewrite Et in Hv. cbn [List.length] in Hv.
    eapply Z.lt_le_trans; [|exact Hv]. apply Z.pow_pos_nonneg; lia. }
  unfold pos_toString. set (v := shortest_value x) in *.
  destruct (Z.ltb_spec v (10 ^ 21)) as [Hlt|Hge].
  - left. exists v. split; [lia|reflexivity].
  - right.
    destruct (Z_toString_digits v Hv0) as (_ & _ & (d & t & Et & Hd) & _).
    rewrite Et. cbn [rev].
    destruct (strip_zeros_snoc d (rev t) ltac:(lia)) as [l' E]. rewrite E, rev_app_distr.
    cbn [rev app].
    destruct (rev l') as [|y ys].
    + exists d, 101, (js "+" ++ Z_toString (Z.of_nat (List.length (d :: t)) - 1)).
      split; [reflexivity|split; [exact Hd|right; reflexivity]].
    + exists d, 46, ((y :: ys) ++ js "e+" ++ Z_toString (Z.of_nat (List.length (d :: t)) - 1)).
      split; [reflexivity|split; [exact Hd|left; reflexivity]].
Qed.

Lemma parseInt_minus_lead (d : Z) (s : jsstr) : 49 <= d <= 57 ->
  parseInt (45 :: d :: s) = num_neg (parseInt (d :: s)).
Proof.
  intros Hd. unfold parseInt. cbn [trim_start].
  assert (Hdd : is_digit d = true) by (apply is_digit_range; lia).
  rewrite (is_space_digit d Hdd).
  replace (is_space 45) with false by reflexivity.
  replace (d =? 45) with false by (symmetry; apply Z.eqb_neq; lia).
  replace (d =? 43) with false by (symmetry; apply Z.eqb_neq; lia).
  cbn [Z.eqb Pos.eqb andb]. cbv beta iota zeta.
  destruct s as [|x r]; cbv beta iota zeta.
  - destruct (digit_prefix 10 _); reflexivity.
  - replace (d =? 48) with false by (symmetry; apply Z.eqb_neq; lia).
    cbn [andb]. cbv beta iota zeta. destruct (digit_prefix 10 _); reflexivity.
Qed.

Lemma parse_pos_toString (x : Z) : 0 < x ->
  (exists y, parseInt (pos_toString x) = JFin y) /\
  exists d rest, pos_toString x = d :: rest /\ 49 <= d <= 57.
Proof.
  intros Hx. destruct (pos_toString_shape x Hx) as [(v & Hv & E)|(d & c & rest & E & Hd & Hc)];
    rewrite E.
  - destruct (Z_toString_digits v ltac:(lia)) as (Hdig & Hval & (d & t & Et & Hd) & _).
    split; [|exists d, t; split; [exact Et|exact Hd]].
    rewrite parseInt_digit_string by (rewrite Et; discriminate || (rewrite <- Et; exact Hdig)).
    rewrite Hval. apply round_double_finite.
    split; [lia|]. eapply Z.lt_trans; [exact (proj2 Hv)|].
    apply (Z.lt_trans _ (2 ^ 70)); [reflexivity|]. apply Z.pow_lt_mono_r; lia.
  - split; [exists (d - 48); apply parseInt_lead_digit; assumption|].
    exists d, (c :: rest). split; [reflexivity|exact Hd].
Qed.

Lemma reparse_finite (x : Z) : exists y, parseInt (number_toString (JFin x)) = JFin y.
Proof.
  unfold number_toString.
  destruct (Z.eqb_spec x 0) as [_|Hx0]; [exists 0; reflexivity|].
  destruct (Z.ltb_spec x 0) as [Hneg|Hpos].
  - destruct (parse_pos_toString (- x) ltac:(lia)) as [[y Hy] (d & rest & E & Hd)].
    rewrite E, parseInt_minus_lead by exact Hd. rewrite <- E, Hy.
    exists (- y). reflexivity.
  - apply parse_pos_toString. lia.
Qed.

Lemma generateOrdinal_rec_NaN (d : nat) : generateOrdinal_rec d JNaN = None.
Proof.
  induction d as [|d IH]; [reflexivity|].
  cbn [generateOrdinal_rec].
  replace (parseInt (number_toString JNaN)) with JNaN by (vm_compute; reflexivity).
  cbn [ordinalWords_at truthy_opt num_ltb num_rem num_eqb]. rewrite IH. reflexivity.
Qed.

Lemma generateOrdinal_rec_small (d : nat) (r : Z) : 0 <= r < 1000 ->
  generateOrdinal_rec (S d) (JFin r) = generateOrdinal_rec 1 (JFin r).
Proof.
  intros Hr. cbn [generateOrdinal_rec].
  rewrite parse_print by lia.
  destruct (truthy_opt (ordinalWords_at (JFin r))); [reflexivity|].
  destruct (num_ltb (JFin r) 100); [reflexivity|].
  replace (num_ltb (JFin r) 1000) with true by (symmetry; apply Z.ltb_lt; lia).
  reflexivity.
Qed.

Lemma generateOrdinal_rec_congr (d1 d2 : nat) (x : Z) :
  (forall r, 0 <= r < 1000 -> generateOrdinal_rec d1 (JFin r) = generateOrdinal_rec d2 (JFin r)) ->
  generateOrdinal_rec (S d1) (JFin x) = generateOrdinal_rec (S d2) (JFin x).
Proof.
  intros Hd. cbn [generateOrdinal_rec].
  destruct (reparse_finite x) as [y ->].
  destruct (truthy_opt (ordinalWords_at (JFin y))); [reflexivity|].
  destruct (num_ltb (JFin y) 100) eqn:H100; [reflexivity|].
  destruct (num_ltb (JFin y) 1000) eqn:H1000; [reflexivity|].
  cbn [num_ltb] in H1000. apply Z.ltb_ge in H1000.
  cbn [num_rem num_eqb].
  destruct (Z.rem y 1000 =? 0); [reflexivity|].
  rewrite Hd; [reflexivity|].
  split; [apply Z.rem_nonneg; lia|]. apply Z.rem_bound_pos; lia.
Qed.

Lemma generateOrdinal_rec_finite (d : nat) (x : Z) :
  generateOrdinal_rec (S (S d)) (JFin x) = generateOrdinal_rec 2 (JFin x).
Proof. apply generateOrdinal_rec_congr. intros r Hr. apply generateOrdinal_rec_small, Hr. Qed.

Lemma generateOrdinal_rec_inf (d : nat) :
  generateOrdinal_rec d JPosInf = None /\ generateOrdinal_rec d JNegInf = None.
Proof.
  destruct d as [|d]; [split; reflexivity|].
  split; cbn [generateOrdinal_rec].
  - replace (parseInt (number_toString JPosInf)) with JNaN by (vm_compute; reflexivity).
    cbn [ordinalWords_at truthy_opt num_ltb num_rem num_eqb].
    rewrite generateOrdinal_rec_NaN. reflexivity.
  - replace (parseInt (number_toString JNegInf)) with JNaN by (vm_compute; reflexivity).
    cbn [ordinalWords_at truthy_opt num_ltb num_rem num_eqb].
    rewrite generateOrdinal_rec_NaN. reflexivity.
Qed.

(** a finite number recurses at most once in [generateOrdinal] (the
    remainder modulo 1000 of a number from 1000 on lies below 1000), so
    the depth bound 2 of the model computes it exactly; on [NaN], Infinity
    or -Infinity the recursion never ends ([NaN % 1000] is [NaN]), which
    JavaScript reports as a [RangeError].  A 400-digit ordinal parses to
    Infinity, so for an English voice its normalization throws. *)
Theorem generateOrdinal_recursion_depth :
  (forall x d, generateOrdinal_rec (S (S d)) (JFin x) = generateOrdinal (JFin x)) /\
  (forall d, generateOrdinal_rec d JNaN = None /\ generateOrdinal_rec d JPosInf = None /\
             generateOrdinal_rec d JNegInf = None) /\
  parseInt (repeat 57 400) = JPosInf /\
  _convertNumbersToEnglish (repeat 57 400 ++ js "th") (js "Kamisato") = None.
Proof.
  split; [|split; [|split]].
  - intros x d. apply generateOrdinal_rec_finite.
  - intros d. split; [apply generateOrdinal_rec_NaN|apply generateOrdinal_rec_inf].
  - vm_compute. reflexivity.
  - vm_compute. reflexivity.
Qed.

Lemma upper_thousands_table :
  forallb (fun n => match ordinalWords n, numberWords (floor_div_double n 1000) with
                    | None, None => true | _, _ => false end)
          (zrange 21000 (Z.to_nat 9000)) = true.
Proof. vm_compute. reflexivity. Qed.

Lemma upper_thousands (n : Z) : 21000 <= n < 30000 ->
  ordinalWords n = None /\ numberWords (floor_div_double n 1000) = None.
Proof.
  intros Hn. pose proof upper_thousands_table as H. rewrite forallb_forall in H.
  specialize (H n ltac:(apply in_zrange; rewrite Z2Nat.id by lia; lia)).
  destruct (ordinalWords n), (numberWords (floor_div_double n 1000)); try discriminate.
  split; reflexivity.
Qed.

Lemma generateOrdinal_below_1000 (r : Z) : 0 <= r < 1000 ->
  exists o, generateOrdinal_rec 1 (JFin r) = Some o.
Proof.
  intros Hr. cbn [generateOrdinal_rec]. rewrite parse_print by lia.
  destruct (truthy_opt (ordinalWords_at (JFin r))); [eexists; reflexivity|].
  destruct (num_ltb (JFin r) 100).
  { destruct (num_eqb _ 0); eexists; reflexivity. }
  replace (num_ltb (JFin r) 1000) with true by (symmetry; apply Z.ltb_lt; lia).
  destruct (num_eqb _ 0); [eexists; reflexivity|].
  destruct (truthy_opt _); [eexists; reflexivity|].
  destruct (num_eqb _ 0); eexists; reflexivity.
Qed.

Lemma generateOrdinal_upper_aux (d : nat) (n : Z) : 21000 <= n < 30000 ->
  (forall r, 0 <= r < 1000 -> exists o, generateOrdinal_rec d (JFin r) = Some o) ->
  exists rest, generateOrdinal_rec (S d) (JFin n) = Some (js "undefined thousand" ++ rest).
Proof.
  intros Hn Hd. destruct (upper_thousands n Hn) as [Ho Hw].
  cbn [generateOrdinal_rec]. rewrite parse_print by lia.
  cbn [ordinalWords_at]. rewrite Ho. cbn [truthy_opt].
  replace (num_ltb (JFin n) 100) with false by (symmetry; apply Z.ltb_ge; lia).
  replace (num_ltb (JFin n) 1000) with false by (symmetry; apply Z.ltb_ge; lia).
  cbn [Math_floor_div numberWords_at num_rem num_eqb]. rewrite Hw.
  destruct (Z.rem n 1000 =? 0); [exists (js "th"); reflexivity|].
  destruct (Hd (Z.rem n 1000)) as [o ->].
  { split; [apply Z.rem_nonneg; lia|apply Z.rem_bound_pos; lia]. }
  exists (js " " ++ o). reflexivity.
Qed.

(** [generateOrdinal] has no upper bound on its argument: from 21000
    to 29999 the thousands are looked up past the end of the number
    table, so the result starts with "undefined thousand"; an English
    voice reads "21000th" as "undefined thousandth". *)
Theorem generateOrdinal_upper_range :
  (forall n, 21000 <= n < 30000 ->
     exists rest, generateOrdinal (JFin n) = Some (js "undefined thousand" ++ rest)) /\
  _convertNumbersToEnglish (js "21000th") (js "Kamisato") = Some (js "undefined thousandth").
Proof.
  split; [|vm_compute; reflexivity].
  intros n Hn. apply generateOrdinal_upper_aux; [exact Hn|].
  apply generateOrdinal_below_1000.
Qed.

Import OnlineTTS.

(** ** The synthesis request and the audio cache *)


Lemma lookup_set_entry_same (es : list (jsstr * node)) (p : jsstr) (n : node) :
  lookup_entry (set_entry es p n) p = Some n.
Proof.
  induction es as [|[q m] r IH]; simpl.
  - rewrite jsstr_eqb_refl. reflexivity.
  - destruct (jsstr_eqb p q) eqn:E; simpl; rewrite E; [reflexivity|exact IH].
Qed.

(** What [_fetchAudioFromAPI] does once the request is sent. *)
Lemma fetch_answer (c : tts) (text v : jsstr) (w : world) :
  text <> [] -> apiKey (cfg c) <> [] -> truthy (_getVoiceId c v) = true ->
  (forall body,
     lookup_entry (entries (wfs w)) (dirname (_getCacheFilePath (rootDir c) text v)) = Some NDir ->
     lookup_entry (entries (wfs w)) (_getCacheFilePath (rootDir c) text v) <> Some NDir ->
     _fetchAudioFromAPI c text v (Answer 200 body) w =
       (Resolved (_getCacheFilePath (rootDir c) text v),
        mkWorld (mkFs (set_entry (entries (wfs w)) (_getCacheFilePath (rootDir c) text v)
                                 (NFile body)) (locked (wfs w)))
                (S (requests w)) (S (writes w)))) /\
  (forall s body, s <> 200 ->
     _fetchAudioFromAPI c text v (Answer s body) w =
       (Rejected (EStatus s), mkWorld (wfs w) (S (requests w)) (writes w))).
Proof.
  intros Ht Hk Hid.
  unfold _fetchAudioFromAPI.
  rewrite (jsstr_eqb_neq _ _ Ht), (jsstr_eqb_neq _ _ Hk), Hid. cbn [negb].
  split.
  - intros body Hdir Hnd. rewrite Z.eqb_refl. cbn [wfs requests writes].
    unfold writeFileSync. rewrite Hdir.
    destruct (lookup_entry (entries (wfs w)) (_getCacheFilePath (rootDir c) text v))
      as [[d|]|]; [reflexivity|congruence|reflexivity].
  - intros s body Hs. rewrite (proj2 (Z.eqb_neq s 200) Hs). reflexivity.
Qed.

(** C1 (amended): once the request is sent, every 200 answer is accepted
    whatever its bytes: the body is written as it is to the cache file and
    the call resolves to that path; there is no check of the first bytes.
    An answer with another status is rejected and nothing is written. *)
Theorem fetch_caches_every_200_body (c : tts) (text v : jsstr) (w : world)
  (Ht : text <> []) (Hk : apiKey (cfg c) <> []) (Hid : truthy (_getVoiceId c v) = true)
  (Hdir : lookup_entry (entries (wfs w)) (dirname (_getCacheFilePath (rootDir c) text v))
          = Some NDir)
  (Hnd : lookup_entry (entries (wfs w)) (_getCacheFilePath (rootDir c) text v) <> Some NDir) :
  (forall body, exists w',
     _fetchAudioFromAPI c text v (Answer 200 body) w =
       (Resolved (_getCacheFilePath (rootDir c) text v), w') /\
     lookup_entry (entries (wfs w')) (_getCacheFilePath (rootDir c) text v) = Some (NFile body) /\
     requests w' = S (requests w) /\ writes w' = S (writes w)) /\
  (forall s body, s <> 200 ->
     _fetchAudioFromAPI c text v (Answer s body) w =
       (Rejected (EStatus s), mkWorld (wfs w) (S (requests w)) (writes w))).
Proof.
  destruct (fetch_answer c text v w Ht Hk Hid) as [H200 Hother].
  split; [|exact Hother].
  intros body. eexists. split; [exact (H200 body Hdir Hnd)|].
  cbn [wfs entries requests writes].
  split; [apply lookup_set_entry_same|split; reflexivity].
Qed.

Lemma fetch_caches_every_200_body_witness :
  js "hi" <> [] /\ apiKey (cfg demo_tts) <> [] /\
  truthy (_getVoiceId demo_tts (js "Kamisato")) = true /\
  exists w',
    _fetchAudioFromAPI demo_tts (js "hi") (js "Kamisato") (Answer 200 (js "ERR")) demo_world =
      (Resolved (_getCacheFilePath (rootDir demo_tts) (js "hi") (js "Kamisato")), w') /\
    lookup_entry (entries (wfs w')) (_getCacheFilePath (rootDir demo_tts) (js "hi") (js "Kamisato"))
      = Some (NFile (js "ERR")) /\
    requests w' = S (requests demo_world) /\ writes w' = S (writes demo_world).
Proof.
  assert (Ht : js "hi" <> []) by discriminate.
  assert (Hk : apiKey (cfg demo_tts) <> []) by discriminate.
  assert (Hid : truthy (_getVoiceId demo_tts (js "Kamisato")) = true) by (vm_compute; reflexivity).
  assert (Hdir : lookup_entry (entries (wfs demo_world))
                   (dirname (_getCacheFilePath (rootDir demo_tts) (js "hi") (js "Kamisato")))
                 = Some NDir) by (vm_compute; reflexivity).
  assert (Hnd : lookup_entry (entries (wfs demo_world))
                  (_getCacheFilePath (rootDir demo_tts) (js "hi") (js "Kamisato")) <> Some NDir)
    by (vm_compute; discriminate).
  split; [exact Ht|split; [exact Hk|split; [exact Hid|]]].
  exact (proj1 (fetch_caches_every_200_body demo_tts (js "hi") (js "Kamisato") demo_world
                  Ht Hk Hid Hdir Hnd) (js "ERR")).
Defined.

(** C1, counterexample: a 200 answer whose body is the error text ERR (no
    ID3 tag, first byte not 0xFF, so no frame sync) is written to
    /mods/guide/tts_cache/Kamisato/hi.mp3 and the request resolves. *)
Lemma fetch_caches_error_payload :
  fst (_fetchAudioFromAPI demo_tts (js "hi") (js "Kamisato") (Answer 200 (js "ERR")) demo_world)
    = Resolved (js "/mods/guide/tts_cache/Kamisato/hi.mp3") /\
  lookup_entry
    (entries (wfs (snd (_fetchAudioFromAPI demo_tts (js "hi") (js "Kamisato")
                          (Answer 200 (js "ERR")) demo_world))))
    (js "/mods/guide/tts_cache/Kamisato/hi.mp3") = Some (NFile (js "ERR")) /\
  jsstr_eqb (firstn 3 (js "ERR")) (js "ID3") = false /\
  (hd 0 (js "ERR") =? 255) = false.
Proof. vm_compute. repeat split. Qed.

Lemma validateAndPrepare_inv (c : tts) (text vn p path v : jsstr) :
  _validateAndPrepare c text vn = inr (p, path, v) ->
  isAvailable c = true /\ path = _getCacheFilePath (rootDir c) p v.
Proof.
  unfold _validateAndPrepare.
  destruct (isAvailable c); [|discriminate]. cbn [negb].
  destruct (List.length _ =? 0)%nat; [discriminate|].
  destruct (_convertNumbersToEnglish _ _); [|discriminate].
  intros H. inversion H. split; reflexivity.
Qed.

Lemma isAvailable_key (c : tts) : isAvailable c = true -> apiKey (cfg c) <> [].
Proof.
  unfold isAvailable. intros H E. rewrite E in H.
  rewrite andb_false_r in H. discriminate.
Qed.

(** C2: when the first call reaches the API (the client is
    available, a voice is configured, the processed text is not empty and
    the voice id resolves) and the cache file is missing, a 200 answer
    costs exactly one request and one write, and any later call with the
    same arguments sends no request and resolves to the same path.  When
    the API answers with another status, the call sends one request,
    writes nothing and leaves the file system as it was, so the next call
    requests again. *)
Theorem generateAudio_fetches_once (c : tts) (text : jsstr) (vo : option jsstr)
  (w : world) (p path v : jsstr)
  (Hprep : _validateAndPrepare c text (voice_arg c vo) = inr (p, path, v))
  (Hp : p <> []) (Hid : truthy (_getVoiceId c v) = true)
  (Hmiss : existsSync (wfs w) path = false)
  (Hdir : lookup_entry (entries (wfs w)) (dirname path) = Some NDir) :
  (forall body, exists w1,
     generateAudio c text vo (Answer 200 body) w = (Resolved path, w1) /\
     requests w1 = S (requests w) /\ writes w1 = S (writes w) /\
     lookup_entry (entries (wfs w1)) path = Some (NFile body) /\
     forall resp, generateAudio c text vo resp w1 = (Resolved path, w1)) /\
  (forall s body, s <> 200 ->
     generateAudio c text vo (Answer s body) w =
       (Rejected (EStatus s), mkWorld (wfs w) (S (requests w)) (writes w))).
Proof.
  destruct (validateAndPrepare_inv _ _ _ _ _ _ Hprep) as [Hav Hpath].
  pose proof (isAvailable_key c Hav) as Hk.
  destruct (fetch_answer c p v w Hp Hk Hid) as [H200 Hother].
  rewrite <- Hpath in H200.
  assert (Hnone : lookup_entry (entries (wfs w)) path = None).
  { unfold existsSync in Hmiss. destruct (lookup_entry _ path); [discriminate|reflexivity]. }
  unfold generateAudio. rewrite Hprep, Hmiss.
  split.
  - intros body.
    rewrite (H200 body Hdir ltac:(rewrite Hnone; discriminate)).
    eexists. split; [reflexivity|].
    cbn [wfs entries requests writes].
    split; [reflexivity|split; [reflexivity|split; [apply lookup_set_entry_same|]]].
    intros resp.
    unfold existsSync. cbn [wfs entries]. rewrite lookup_set_entry_same. reflexivity.
  - intros s body Hs. rewrite (Hother s body Hs). reflexivity.
Qed.

Lemma generateAudio_fetches_once_witness :
  _validateAndPrepare demo_tts (js "hi") (voice_arg demo_tts None) =
    inr (js "hi", js "/mods/guide/tts_cache/Kamisato/hi.mp3", js "Kamisato") /\
  exists w1,
    generateAudio demo_tts (js "hi") None (Answer 200 (js "ID3")) demo_world =
      (Resolved (js "/mods/guide/tts_cache/Kamisato/hi.mp3"), w1) /\
    requests w1 = 1%nat /\ writes w1 = 1%nat /\
    forall resp, generateAudio demo_tts (js "hi") None resp w1 =
                   (Resolved (js "/mods/guide/tts_cache/Kamisato/hi.mp3"), w1).
Proof.
  assert (Hprep : _validateAndPrepare demo_tts (js "hi") (voice_arg demo_tts None) =
    inr (js "hi", js "/mods/guide/tts_cache/Kamisato/hi.mp3", js "Kamisato"))
    by (vm_compute; reflexivity).
  split; [exact Hprep|].
  destruct (proj1 (generateAudio_fetches_once demo_tts (js "hi") None demo_world
                     (js "hi") (js "/mods/guide/tts_cache/Kamisato/hi.mp3") (js "Kamisato")
                     Hprep ltac:(discriminate) ltac:(vm_compute; reflexivity)
                     ltac:(vm_compute; reflexivity) ltac:(vm_compute; reflexivity))
                  (js "ID3")) as (w1 & H1 & Hr & Hw & _ & H2).
  exists w1. split; [exact H1|split; [exact Hr|split; [exact Hw|exact H2]]].
Defined.

(** ** Adding and deleting voices *)

(** C8: [deleteVoice] deletes a voice whose own entry holds a non-empty id
    when it is not the default, and refuses the default voice.  Its
    presence test is the truthiness of [voices[name]]: a name inherited
    from [Object.prototype] such as constructor passes it, so deleting a
    voice that is not configured returns true (the map is left as it was);
    a configured voice whose id is the empty string fails it, so its
    deletion returns false. *)
Theorem deleteVoice_presence_test :
  (forall c f name vs id, voices (cfg c) = Some vs -> own_get vs name = Some id ->
     id <> [] -> defaultVoice (cfg c) <> name ->
     fst (fst (deleteVoice c f name)) = true /\
     voices (cfg (snd (fst (deleteVoice c f name)))) = Some (obj_delete vs name)) /\
  (forall c f name, defaultVoice (cfg c) = name -> deleteVoice c f name = (false, c, f)) /\
  deleteVoice demo_tts demo_fs (js "constructor") = (true, demo_tts, demo_fs) /\
  fst (fst (deleteVoice
    (mkTTS (js "/mods/guide")
       (mkSettings true (js "key") (Some [(js "Kamisato", js "id1"); (js "Bob", [])])
          (js "Kamisato")))
    demo_fs (js "Bob"))) = false.
Proof.
  split; [|split; [|split]].
  - intros c f name vs id Hv Hown Hid Hd.
    unfold deleteVoice. rewrite Hv. unfold obj_get. rewrite Hown.
    cbn [truthy]. rewrite (jsstr_eqb_neq _ _ Hid), (jsstr_eqb_neq _ _ Hd).
    split; reflexivity.
  - intros c f name Hd. unfold deleteVoice.
    destruct (voices (cfg c)) as [vs|]; [|reflexivity].
    rewrite Hd, jsstr_eqb_refl, orb_true_r. reflexivity.
  - vm_compute. reflexivity.
  - vm_compute. reflexivity.
Qed.

(** C9: with the name __proto__ the assignment [voices[name] = id] goes to
    the inherited setter and adds no key, so a map that already holds the
    voice Kamisato still has one key and [setVoice] makes __proto__ the
    default voice; an ordinary second voice leaves the default as it
    was. *)
Theorem setVoice_proto_name_default :
  voices (cfg (fst (setVoice demo_tts demo_fs (js "__proto__") (js "id2")))) =
    Some [(js "Kamisato", js "id1")] /\
  defaultVoice (cfg (fst (setVoice demo_tts demo_fs (js "__proto__") (js "id2")))) =
    js "__proto__" /\
  voices (cfg (fst (setVoice demo_tts demo_fs (js "Bob") (js "id2")))) =
    Some [(js "Kamisato", js "id1"); (js "Bob", js "id2")] /\
  defaultVoice (cfg (fst (setVoice demo_tts demo_fs (js "Bob") (js "id2")))) =
    js "Kamisato".
Proof. vm_compute. repeat split. Qed.

(** ** Clearing the cache of a deleted voice *)

Lemma lookup_remove_other (es : list (jsstr * node)) (p q : jsstr) :
  jsstr_eqb q p = false -> lookup_entry (remove_entry es p) q = lookup_entry es q.
Proof.
  intros Hqp. induction es as [|[r n] es IH]; [reflexivity|].
  unfold remove_entry in *. cbn [filter fst].
  destruct (jsstr_eqb r p) eqn:Erp; cbn [negb].
  - apply jsstr_eqb_true in Erp. subst r. cbn [lookup_entry]. rewrite Hqp. exact IH.
  - cbn [lookup_entry]. destruct (jsstr_eqb q r); [reflexivity|exact IH].
Qed.

Lemma unlinkSync_spec (f : fsys) (p : jsstr) :
  unlinkSync f p =
  if file_unlocked f p then Some (mkFs (remove_entry (entries f) p) (locked f)) else None.
Proof.
  unfold unlinkSync, file_unlocked.
  destruct (lookup_entry (entries f) p) as [[d|]|]; [|reflexivity|reflexivity].
  destruct (existsb (jsstr_eqb p) (locked f)); reflexivity.
Qed.

Lemma filter_ext_all {A} (P Q : A -> bool) (l : list A) :
  (forall a, In a l -> P a = Q a) -> filter P l = filter Q l.
Proof.
  induction l as [|a l IH]; intros H; [reflexivity|].
  cbn [filter]. rewrite (H a (or_introl eq_refl)).
  rewrite IH by (intros b Hb; apply H; right; exact Hb). reflexivity.
Qed.

Lemma filter_filter_and {A} (P Q : A -> bool) (l : list A) :
  filter P (filter Q l) = filter (fun a => Q a && P a) l.
Proof.
  induction l as [|a l IH]; [reflexivity|].
  cbn [filter]. destruct (Q a); cbn [andb filter]; [destruct (P a)|]; rewrite ?IH; reflexivity.
Qed.

(** A sequence of [unlinkSync] calls whose failures are ignored removes
    exactly the listed paths that are unlocked regular files. *)
Lemma unlink_fold (ps : list jsstr) (f : fsys) :
  fold_left (fun g p => match unlinkSync g p with Some g' => g' | None => g end) ps f =
  mkFs (filter (fun e => negb (existsb (jsstr_eqb (fst e)) ps && file_unlocked f (fst e)))
               (entries f)) (locked f).
Proof.
  revert f. induction ps as [|a ps IH]; intros f.
  - destruct f as [es l]. cbn. f_equal.
    induction es as [|e es IHe]; [reflexivity|]. cbn. f_equal. exact IHe.
  - cbn [fold_left]. rewrite unlinkSync_spec.
    destruct (file_unlocked f a) eqn:Ha.
    + rewrite IH. cbn [entries locked]. f_equal.
      unfold remove_entry. rewrite filter_filter_and.
      apply filter_ext_all. intros [q n] _. cbn [fst existsb].
      destruct (jsstr_eqb q a) eqn:Eqa; cbn [negb andb orb].
      * apply jsstr_eqb_true in Eqa. subst q. rewrite Ha. reflexivity.
      * f_equal. f_equal. unfold file_unlocked. cbn [entries locked].
        fold (remove_entry (entries f) a). rewrite lookup_remove_other by exact Eqa. reflexivity.
    + rewrite IH. f_equal. apply filter_ext_all. intros [q n] _. cbn [fst existsb].
      destruct (jsstr_eqb q a) eqn:Eqa; [|reflexivity].
      apply jsstr_eqb_true in Eqa. subst q. rewrite Ha, !andb_false_r. reflexivity.
Qed.

Lemma plain_segb_plain (x : jsstr) : plain_segb x = true -> plain_seg x.
Proof.
  unfold plain_segb. intros H.
  apply andb_true_iff in H as [H H4]. apply andb_true_iff in H as [H H3].
  apply andb_true_iff in H as [H1 H2].
  apply negb_true_iff in H1, H2, H3, H4.
  split; [|split; [|split]].
  - intros ->. rewrite jsstr_eqb_refl in H1. discriminate.
  - intros Hin. assert (existsb (Z.eqb 47) x = true) as E.
    { apply existsb_exists. exists 47. split; [exact Hin|apply Z.eqb_refl]. }
    congruence.
  - intros ->. rewrite jsstr_eqb_refl in H3. discriminate.
  - intros ->. rewrite jsstr_eqb_refl in H4. discriminate.
Qed.

Lemma child_name_path (dir p x : jsstr) :
  child_name dir p = Some x -> p = dir ++ [47] ++ x /\ plain_segb x = true.
Proof.
  unfold child_name.
  destruct (jsstr_eqb (firstn (S (List.length dir)) p) (dir ++ [47]) &&
            plain_segb (skipn (S (List.length dir)) p)) eqn:E; [|discriminate].
  intros H. injection H as <-.
  apply andb_true_iff in E as [E1 E2]. apply jsstr_eqb_true in E1.
  split; [|exact E2].
  rewrite <- (firstn_skipn (S (List.length dir)) p) at 1. rewrite E1, <- app_assoc. reflexivity.
Qed.

Lemma join_sep_snoc (L : list jsstr) (x : jsstr) :
  L <> [] -> join_sep (L ++ [x]) = join_sep L ++ [47] ++ x.
Proof.
  induction L as [|y L IH]; intros H; [congruence|].
  destruct L as [|z L]; [reflexivity|].
  change (join_sep ((y :: z :: L) ++ [x])) with (y ++ [47] ++ join_sep ((z :: L) ++ [x])).
  rewrite IH by discriminate.
  change (join_sep (y :: z :: L)) with (y ++ [47] ++ join_sep (z :: L)).
  rewrite !app_assoc. reflexivity.
Qed.

Lemma join_child (L : list jsstr) (x : jsstr) :
  Forall plain_seg L -> L <> [] -> plain_seg x ->
  path_join [abs_path L; x] = abs_path L ++ [47] ++ x.
Proof.
  intros HL Hne Hx.
  rewrite path_join_abs by (exact HL || (constructor; [exact Hx|constructor]) || discriminate).
  unfold abs_path. rewrite join_sep_snoc by exact Hne. reflexivity.
Qed.

Lemma voice_cache_dir_eq (segs : list jsstr) (name : jsstr) :
  Forall plain_seg segs -> plain_seg name ->
  path_join [_getActualCachePath (abs_path segs); name] = voice_cache_dir segs name.
Proof.
  intros Hsegs Hname. rewrite actual_cache_path_abs by exact Hsegs.
  rewrite path_join_abs.
  - unfold voice_cache_dir. rewrite <- app_assoc. reflexivity.
  - apply Forall_app. split; [exact Hsegs|constructor; [exact plain_cacheDir|constructor]].
  - constructor; [exact Hname|constructor].
  - discriminate.
Qed.

Lemma unlink_all_paths (dir : jsstr) (files : list jsstr) (f : fsys) :
  unlink_all dir files f =
  fold_left (fun g p => match unlinkSync g p with Some g' => g' | None => g end)
            (map (fun x => path_join [dir; x]) files) f.
Proof.
  unfold unlink_all. revert f.
  induction files as [|x files IH]; intros f; [reflexivity|]. cbn. apply IH.
Qed.

Lemma readdir_paths (L : list jsstr) (es : list (jsstr * node)) :
  Forall plain_seg L -> L <> [] ->
  map (fun x => path_join [abs_path L; x])
      (flat_map (fun e => match child_name (abs_path L) (fst e) with
                          | Some x => [x] | None => [] end) es) =
  child_paths (abs_path L) es.
Proof.
  intros HL Hne. unfold child_paths.
  induction es as [|e es IH]; [reflexivity|].
  cbn [flat_map]. rewrite map_app, IH.
  destruct (child_name (abs_path L) (fst e)) as [x|] eqn:Hc; [|reflexivity].
  destruct (child_name_path _ _ _ Hc) as [Hp Hx].
  cbn [map app]. rewrite join_child by (exact HL || exact Hne || exact (plain_segb_plain _ Hx)).
  rewrite <- Hp. reflexivity.
Qed.

Lemma existsb_child_paths (dir q : jsstr) (es : list (jsstr * node)) :
  In q (map fst es) ->
  existsb (jsstr_eqb q) (child_paths dir es) =
  match child_name dir q with Some _ => true | None => false end.
Proof.
  intros Hq. unfold child_paths.
  destruct (child_name dir q) as [x|] eqn:Hc.
  - apply existsb_exists. exists q. split; [|apply jsstr_eqb_refl].
    apply in_map_iff in Hq as [e [He Hin]].
    apply in_flat_map. exists e. split; [exact Hin|]. rewrite He, Hc. left. reflexivity.
  - destruct (existsb _ _) eqn:E; [|reflexivity].
    apply existsb_exists in E as [y [Hy Eqy]]. apply jsstr_eqb_true in Eqy. subst y.
    apply in_flat_map in Hy as [e [_ He]].
    destruct (child_name dir (fst e)) eqn:Hce; [|destruct He].
    destruct He as [He|[]]. rewrite He in Hce. congruence.
Qed.

(** C10: when [deleteVoice name] succeeds, besides deleting the own entry
    [name] of the voice map, it removes from disk every regular file
    directly in the voice's cache directory <root>/tts_cache/<name> whose
    unlink succeeds, and changes nothing else on disk; the success result
    and the new configuration do not depend on the file system, so failed
    unlinks change neither. *)
Theorem deleteVoice_clears_voice_cache (c : tts) (f : fsys) (name : jsstr)
  (segs : list jsstr)
  (Hroot : rootDir c = abs_path segs) (Hsegs : Forall plain_seg segs)
  (Hname : plain_seg name) (Hok : fst (fst (deleteVoice c f name)) = true) :
  voices (cfg (snd (fst (deleteVoice c f name)))) =
    option_map (fun vs => obj_delete vs name) (voices (cfg c)) /\
  (lookup_entry (entries f) (voice_cache_dir segs name) = Some NDir ->
     snd (deleteVoice c f name) =
       mkFs (filter (fun e => negb (cached_removable f (voice_cache_dir segs name) (fst e)))
                    (entries f)) (locked f)) /\
  (lookup_entry (entries f) (voice_cache_dir segs name) <> Some NDir ->
     snd (deleteVoice c f name) = f) /\
  (forall f2, fst (deleteVoice c f2 name) = fst (deleteVoice c f name)).
Proof.
  unfold deleteVoice in *.
  destruct (voices (cfg c)) as [vs|] eqn:Hv; [|discriminate Hok].
  destruct (negb (truthy (obj_get vs name)) || jsstr_eqb (defaultVoice (cfg c)) name) eqn:Hg;
    [discriminate Hok|].
  rewrite Hroot, (voice_cache_dir_eq segs name Hsegs Hname).
  set (dir := voice_cache_dir segs name).
  split; [reflexivity|split; [|split; [|intros f2; reflexivity]]].
  - intros Hl. cbn [snd]. unfold existsSync, readdirSync. rewrite Hl.
    assert (Hsegs' : Forall plain_seg (segs ++ [cacheDir; name])).
    { apply Forall_app. split; [exact Hsegs|].
      constructor; [exact plain_cacheDir|constructor; [exact Hname|constructor]]. }
    assert (Hne : segs ++ [cacheDir; name] <> []).
    { intros E. apply app_eq_nil in E as [_ E]. discriminate. }
    rewrite unlink_all_paths. unfold dir, voice_cache_dir.
    rewrite (readdir_paths _ _ Hsegs' Hne), unlink_fold. f_equal.
    apply filter_ext_all. intros e He.
    rewrite existsb_child_paths by (apply in_map; exact He).
    unfold cached_removable. destruct (child_name _ (fst e)); reflexivity.
  - intros Hl. cbn [snd]. unfold existsSync, readdirSync.
    destruct (lookup_entry (entries f) dir) as [[d|]|]; [reflexivity|congruence|reflexivity].
Qed.

Lemma deleteVoice_clears_voice_cache_witness :
  rootDir demo_tts2 = abs_path [js "mods"; js "guide"] /\
  fst (fst (deleteVoice demo_tts2 demo_fs2 (js "Kamisato"))) = true /\
  snd (deleteVoice demo_tts2 demo_fs2 (js "Kamisato")) =
    mkFs (filter (fun e => negb (cached_removable demo_fs2
                                   (voice_cache_dir [js "mods"; js "guide"] (js "Kamisato"))
                                   (fst e)))
                 (entries demo_fs2)) (locked demo_fs2).
Proof.
  assert (Hroot : rootDir demo_tts2 = abs_path [js "mods"; js "guide"])
    by (vm_compute; reflexivity).
  assert (Hsegs : Forall plain_seg [js "mods"; js "guide"]).
  { apply Forall_cons; [solve_plain|apply Forall_cons; [solve_plain|apply Forall_nil]]. }
  assert (Hname : plain_seg (js "Kamisato")) by solve_plain.
  assert (Hok : fst (fst (deleteVoice demo_tts2 demo_fs2 (js "Kamisato"))) = true)
    by (vm_compute; reflexivity).
  split; [exact Hroot|split; [exact Hok|]].
  apply (proj1 (proj2 (deleteVoice_clears_voice_cache demo_tts2 demo_fs2 (js "Kamisato")
                         [js "mods"; js "guide"] Hroot Hsegs Hname Hok))).
  vm_compute. reflexivity.
Defined.

(** ** Cache file names *)

Lemma star_class_some (s : jsstr) (neg : bool) (P : Z -> bool) (fuel i b : nat) (cs cs' : captures) :
  (i <= List.length s)%nat ->
  star_loop (mt s false (RClass neg P)) (fun j cs => Some (j, cs)) fuel i cs = Some (b, cs') ->
  (i <= b <= List.length s)%nat.
Proof.
  revert i cs. induction fuel as [|f IH]; intros i cs Hi H.
  - injection H as <- _. lia.
  - rewrite star_loop_S, mt_class in H.
    destruct (nth_error s i) as [d|] eqn:Hd.
    + assert (Hlt : (i < List.length s)%nat) by (apply nth_error_Some; congruence).
      destruct (xorb neg (class_mem false P d)).
      * rewrite (proj2 (Nat.eqb_neq (S i) i)) in H by lia.
        destruct (star_loop _ _ f (S i) cs) as [x|] eqn:Hs.
        -- injection H as ->. apply IH in Hs; lia.
        -- injection H as <- _. lia.
      * injection H as <- _. lia.
    + injection H as <- _. lia.
Qed.

Lemma star_loop_total (m : matcher) (fuel i : nat) (cs : captures) :
  star_loop m (fun j cs => Some (j, cs)) fuel i cs <> None.
Proof.
  revert i cs. induction fuel as [|f IH]; intros i cs; [discriminate|].
  rewrite star_loop_S. destruct (m i cs _); discriminate.
Qed.

Lemma match_at_plus_class (s : jsstr) (P : Z -> bool) (m : nat) :
  match_at s false (RPlus (RClass false P)) m <> None <->
  (exists d, nth_error s m = Some d /\ P d = true).
Proof.
  unfold match_at, RPlus. cbn [mt].
  destruct (nth_error s m) as [d|] eqn:Hd.
  - unfold class_mem. cbn [xorb]. destruct (P d) eqn:HP.
    + split; [intros _; exists d; split; [reflexivity|exact HP]|intros _; apply star_loop_total].
    + split; [congruence|intros [d' [E H]]; congruence].
  - split; [congruence|intros [d' [E H]]; discriminate].
Qed.

Lemma match_at_plus_class_end (s : jsstr) (P : Z -> bool) (m b : nat) (cs : captures) :
  match_at s false (RPlus (RClass false P)) m = Some (b, cs) ->
  (m < b <= List.length s)%nat.
Proof.
  unfold match_at, RPlus. cbn [mt].
  destruct (nth_error s m) as [d|] eqn:Hd; [|discriminate].
  assert (Hlt : (m < List.length s)%nat) by (apply nth_error_Some; congruence).
  destruct (xorb false (class_mem false P d)); [|discriminate].
  intros H. apply star_class_some in H; lia.
Qed.

(** Replacing every match of a pattern that matches, non-empty, at each
    character of a class leaves no character of the class behind, except
    those of the constant. *)
Lemma replace_removes (P : Z -> bool) (r : regex) (t s : jsstr) (c : Z) :
  (forall m d, nth_error s m = Some d -> P d = true -> match_at s false r m <> None) ->
  (forall m b cs, match_at s false r m = Some (b, cs) -> (m < b <= List.length s)%nat) ->
  In c (replace_g false r (const_rep t) s) -> P c = true -> In c t.
Proof.
  intros Hm Hend. unfold replace_g. intros H HP.
  assert (Hf : (List.length s - 0 < S (List.length s))%nat) by lia.
  revert H Hf. generalize (S (List.length s)) 0%nat.
  intros fuel. induction fuel as [|f IH]; intros last H Hf; [lia|].
  cbn [replace_all_from] in H.
  destruct (exec_from s false r (S (List.length s - last)) last)
    as [[[a b] cs]|] eqn:He.
  - apply exec_from_some in He as (Hle & Hab & Hbefore).
    pose proof (Hend _ _ _ Hab) as Hb.
    apply in_app_or in H as [H|H].
    { exfalso. apply in_substr in H as [m [Hmr Hc]].
      exact (Hm m c Hc HP (Hbefore m Hmr)). }
    apply in_app_or in H as [H|H]; [exact H|].
    rewrite (proj2 (Nat.eqb_neq a b)) in H by lia.
    apply (IH b H). lia.
  - exfalso. apply in_skipn_at in H as [m [Hmr Hc]].
    assert (Hlt : (m < List.length s)%nat) by (apply nth_error_Some; congruence).
    pose proof (exec_from_none _ _ _ _ _ He m ltac:(lia)) as Hn.
    exact (Hm m c Hc HP Hn).
Qed.

Lemma replace_plus_class_removes (P : Z -> bool) (t s : jsstr) (c : Z) :
  In c (replace_g false (RPlus (RClass false P)) (const_rep t) s) -> P c = true -> In c t.
Proof.
  apply replace_removes.
  - intros m d Hd HP. apply match_at_plus_class. exists d. split; assumption.
  - intros m b cs H. exact (match_at_plus_class_end s P m b cs H).
Qed.

(** [_textToFileName] never returns an empty name, never one longer than
    100 characters, and its result holds no white space, no backslash,
    slash, colon, star, question mark, double quote, angle bracket or bar,
    and none of the removed punctuation. *)
Theorem textToFileName_safe (text : jsstr) :
  _textToFileName text <> [] /\ (List.length (_textToFileName text) <= 100)%nat /\
  (forall c, In c (_textToFileName text) -> fname_char_ok c).
Proof.
  set (p1 := replace_g false re_punct (const_rep []) (trim text)).
  set (p2 := replace_g false re_unsafe (const_rep (js "_")) p1).
  set (p3 := replace_g false (RPlus RSpace) (const_rep (js "_")) p2).
  set (p4 := replace_g false re_underscores (const_rep (js "_")) p3).
  set (p5 := replace_g false re_edge_underscore (const_rep []) p4).
  assert (Hu : fname_char_ok 95) by (vm_compute; repeat split).
  assert (H1 : forall c, In c p1 -> class_chars re_punct c = false).
  { intros c H. destruct (class_chars re_punct c) eqn:E; [|reflexivity].
    exact (False_ind _ (replace_class_removes _ _ _ c H E)). }
  assert (H2 : forall c, In c p2 -> class_chars re_unsafe c = false /\ class_chars re_punct c = false).
  { intros c H. split.
    - destruct (class_chars re_unsafe c) eqn:E; [|reflexivity].
      apply replace_class_removes in H; [|exact E]. destruct H as [<-|[]]. vm_compute in E; discriminate E.
    - apply replace_const_chars in H as [H|[<-|[]]]; [exact (H1 c H)|reflexivity]. }
  assert (H3 : forall c, In c p3 -> fname_char_ok c).
  { intros c H. destruct (is_space c) eqn:E.
    - apply replace_plus_class_removes in H; [|exact E]. destruct H as [<-|[]]. exact Hu.
    - apply replace_const_chars in H as [H|[<-|[]]]; [|exact Hu].
      split; [exact E|exact (H2 c H)]. }
  assert (H4 : forall c, In c p4 -> fname_char_ok c).
  { intros c H. apply replace_const_chars in H as [H|[<-|[]]]; [exact (H3 c H)|exact Hu]. }
  assert (H5 : forall c, In c p5 -> fname_char_ok c).
  { intros c H. apply replace_const_chars in H as [H|[]]. exact (H4 c H). }
  change (_textToFileName text) with
    (if (100 <? Z.of_nat (List.length p5))%Z then firstn 100 p5
     else match p5 with [] => js "tts_audio" | _ => p5 end).
  destruct (100 <? Z.of_nat (List.length p5))%Z eqn:Hlen.
  - apply Z.ltb_lt in Hlen.
    assert (Hl : List.length (firstn 100 p5) = 100%nat) by (rewrite length_firstn; lia).
    split; [intros E; rewrite E in Hl; discriminate|split; [lia|]].
    intros c H. apply in_firstn_in in H. exact (H5 c H).
  - apply Z.ltb_ge in Hlen. destruct p5 as [|x r] eqn:E.
    + split; [discriminate|split; [simpl; lia|]].
      intros c H. vm_compute in H.
      repeat (destruct H as [<-|H]; [vm_compute; repeat split|]). destruct H.
    + split; [discriminate|split; [lia|exact H5]].
Qed.

(** ** The settings setters *)

(** [setRate] always stores a finite rate between 0.5 and 5: [NaN] and
    0 become the default 1, a rate from 0.5 up to 5 is kept, a smaller one
    (negative or [-Infinity] included) becomes 0.5 and 5 or more
    ([Infinity] included) becomes 5. *)
Theorem setRate_clamps :
  (forall rate, exists q, setRate rate = JNum q /\ (1 # 2 <= q)%Q /\ (q <= 5)%Q) /\
  setRate JNaN = JNum 1 /\
  (forall q, (q == 0)%Q -> setRate (JNum q) = JNum 1) /\
  (forall q, (1 # 2 <= q)%Q -> (q < 5)%Q -> setRate (JNum q) = JNum q) /\
  (forall q, ~ (q == 0)%Q -> (q < 1 # 2)%Q -> setRate (JNum q) = JNum (1 # 2)) /\
  (forall q, (5 <= q)%Q -> setRate (JNum q) = JNum 5) /\
  setRate JPosInf = JNum 5 /\ setRate JNegInf = JNum (1 # 2).
Proof.
  assert (Hnum : forall q, ~ (q == 0)%Q ->
    setRate (JNum q) =
      if Qle_bool (1 # 2) (if Qle_bool 5 q then 5 else q)
      then JNum (if Qle_bool 5 q then 5 else q) else JNum (1 # 2)).
  { intros q Hq. unfold setRate, parseFloat_num, num_truthy.
    destruct (Qeq_bool q 0) eqn:E.
    - apply Qeq_bool_iff in E. contradiction.
    - cbn [negb Math_min num_le]. destruct (Qle_bool 5 q); reflexivity. }
  assert (Hzero : forall q, (q == 0)%Q -> setRate (JNum q) = JNum 1).
  { intros q Hq. unfold setRate, parseFloat_num, num_truthy.
    rewrite (proj2 (Qeq_bool_iff q 0) Hq). reflexivity. }
  assert (Hlt5 : forall q, Qle_bool 5 q = false -> (q < 5)%Q).
  { intros q E. apply Qnot_le_lt. intros H. apply Qle_bool_iff in H. congruence. }
  split; [|split; [reflexivity|split; [exact Hzero|split; [|split; [|split; [|split; reflexivity]]]]]].
  - intros [q| | |]; [|exists 1%Q; split; [reflexivity|split; discriminate]
                      |exists 5%Q; split; [reflexivity|split; discriminate]
                      |exists (1 # 2)%Q; split; [reflexivity|split; discriminate]].
    destruct (Qeq_dec q 0) as [Hq|Hq].
    { exists 1%Q. split; [exact (Hzero q Hq)|split; discriminate]. }
    rewrite (Hnum q Hq).
    destruct (Qle_bool 5 q) eqn:E5.
    + exists 5%Q. split; [reflexivity|split; discriminate].
    + apply Hlt5 in E5.
      destruct (Qle_bool (1 # 2) q) eqn:E1.
      * exists q. apply Qle_bool_iff in E1.
        split; [reflexivity|split; [exact E1|apply Qlt_le_weak; exact E5]].
      * exists (1 # 2)%Q. split; [reflexivity|split; discriminate].
  - intros q H1 H5.
    assert (Hq : ~ (q == 0)%Q).
    { intros E. destruct q as [n d]. unfold Qeq, Qle in *. simpl in *. lia. }
    rewrite (Hnum q Hq).
    destruct (Qle_bool 5 q) eqn:E5.
    + apply Qle_bool_iff in E5. exfalso. exact (Qlt_not_le _ _ H5 E5).
    + rewrite (proj2 (Qle_bool_iff (1 # 2) q) H1). reflexivity.
  - intros q Hq H1. rewrite (Hnum q Hq).
    destruct (Qle_bool 5 q) eqn:E5.
    + apply Qle_bool_iff in E5. exfalso. apply (Qlt_irrefl q).
      apply Qlt_le_trans with (1 # 2)%Q; [exact H1|].
      apply Qle_trans with 5%Q; [discriminate|exact E5].
    + destruct (Qle_bool (1 # 2) q) eqn:E1; [|reflexivity].
      apply Qle_bool_iff in E1. exfalso. exact (Qlt_not_le _ _ H1 E1).
  - intros q H5.
    assert (Hq : ~ (q == 0)%Q).
    { intros E. destruct q as [n d]. unfold Qeq, Qle in *. simpl in *. lia. }
    rewrite (Hnum q Hq).
    rewrite (proj2 (Qle_bool_iff 5 q) H5). reflexivity.
Qed.

Lemma own_get_delete (o : obj) (name k : jsstr) :
  own_get (obj_delete o name) k = if jsstr_eqb k name then None else own_get o k.
Proof.
  unfold obj_delete. induction o as [|[k' v] r IH]; simpl.
  - destruct (jsstr_eqb k name); reflexivity.
  - destruct (jsstr_eqb k' name) eqn:E1; simpl.
    + rewrite IH. destruct (jsstr_eqb k name) eqn:E2; [reflexivity|].
      apply jsstr_eqb_true in E1. subst k'. rewrite E2. reflexivity.
    + destruct (jsstr_eqb k k') eqn:E2; [|exact IH].
      apply jsstr_eqb_true in E2. subst k'. rewrite E1. reflexivity.
Qed.

Lemma own_get_own_set (o : obj) (k v q : jsstr) :
  own_get (own_set o k v) q = if jsstr_eqb q k then Some v else own_get o q.
Proof.
  induction o as [|[k' v'] r IH]; simpl.
  - destruct (jsstr_eqb q k); reflexivity.
  - destruct (jsstr_eqb k k') eqn:E1; simpl.
    + apply jsstr_eqb_true in E1. subst k'.
      destruct (jsstr_eqb q k); reflexivity.
    + destruct (jsstr_eqb q k') eqn:E2.
      * apply jsstr_eqb_true in E2. subst k'.
        destruct (jsstr_eqb q k) eqn:E3; [|reflexivity].
        apply jsstr_eqb_true in E3. subst q. rewrite jsstr_eqb_refl in E1. discriminate.
      * exact IH.
Qed.

Lemma own_get_obj_set (o : obj) (k v q : jsstr) :
  k <> js "__proto__" ->
  own_get (obj_set o k v) q = if jsstr_eqb q k then Some v else own_get o q.
Proof.
  intros Hk. unfold obj_set.
  destruct (own_get o k); [apply own_get_own_set|].
  rewrite (jsstr_eqb_neq _ _ Hk). apply own_get_own_set.
Qed.

(** [setDefaultVoice(name)] succeeds exactly when [voices[name]] is
    truthy; it then only changes the default voice, and the voice it made
    the default cannot be deleted: a following [deleteVoice(name)] returns
    false and changes nothing.  On failure nothing changes. *)
Theorem setDefaultVoice_protects_default (c : tts) (f : fsys) (name : jsstr) :
  let '(ok, c') := setDefaultVoice c name in
  ok = match voices (cfg c) with Some vs => truthy (obj_get vs name) | None => false end /\
  (ok = false -> c' = c) /\
  (ok = true -> defaultVoice (cfg c') = name /\ voices (cfg c') = voices (cfg c) /\
                rootDir c' = rootDir c /\ isAvailable c' = isAvailable c /\
                deleteVoice c' f name = (false, c', f)).
Proof.
  unfold setDefaultVoice.
  destruct (voices (cfg c)) as [vs|] eqn:Hv.
  - destruct (truthy (obj_get vs name)) eqn:Ht.
    + split; [reflexivity|split; [discriminate|intros _]].
      split; [reflexivity|split; [reflexivity|split; [reflexivity|split; [reflexivity|]]]].
      unfold deleteVoice, with_voices. cbn [cfg voices defaultVoice].
      rewrite jsstr_eqb_refl, orb_true_r. reflexivity.
    + split; [reflexivity|split; [reflexivity|discriminate]].
  - split; [reflexivity|split; [reflexivity|discriminate]].
Qed.

(** [deleteVoice(name)] never changes the default voice, the root, the
    key or the enabled flag.  When it returns false it changes nothing;
    when it returns true the voice [name] is no longer an own entry of
    [voices] and every other entry is as before. *)
Theorem deleteVoice_removes_only_name (c : tts) (f : fsys) (name : jsstr) :
  let '(ok, c', f') := deleteVoice c f name in
  defaultVoice (cfg c') = defaultVoice (cfg c) /\ rootDir c' = rootDir c /\
  isAvailable c' = isAvailable c /\
  (ok = false -> c' = c /\ f' = f) /\
  (ok = true -> own_get (voices_or_empty c') name = None /\
     forall k, k <> name -> own_get (voices_or_empty c') k = own_get (voices_or_empty c) k).
Proof.
  unfold deleteVoice.
  destruct (voices (cfg c)) as [vs|] eqn:Hv.
  - destruct (negb (truthy (obj_get vs name)) || jsstr_eqb (defaultVoice (cfg c)) name).
    + split; [reflexivity|split; [reflexivity|split; [reflexivity|split; [intros _; split; reflexivity|discriminate]]]].
    + split; [reflexivity|split; [reflexivity|split; [reflexivity|split; [discriminate|intros _]]]].
      unfold voices_or_empty, with_voices. cbn [cfg voices]. rewrite Hv.
      split; [rewrite own_get_delete, jsstr_eqb_refl; reflexivity|].
      intros k Hk. rewrite own_get_delete, (jsstr_eqb_neq _ _ Hk). reflexivity.
  - split; [reflexivity|split; [reflexivity|split; [reflexivity|split; [intros _; split; reflexivity|discriminate]]]].
Qed.

(** ** The cache check of [hasCachedAudio], [generateAudio] and [speak] *)

Lemma fetch_resolved (c : tts) (text v : jsstr) (resp : response) (w w' : world) (x : jsstr) :
  _fetchAudioFromAPI c text v resp w = (Resolved x, w') ->
  x = _getCacheFilePath (rootDir c) text v /\
  existsSync (wfs w') x = true /\ requests w' = S (requests w).
Proof.
  unfold _fetchAudioFromAPI.
  destruct (jsstr_eqb text []); [discriminate|].
  destruct (jsstr_eqb (apiKey (cfg c)) []); [discriminate|].
  destruct (negb (truthy (_getVoiceId c v))); [discriminate|].
  destruct resp as [status body| |]; [|discriminate|discriminate].
  destruct (status =? 200); [|discriminate].
  cbn [wfs requests writes]. unfold writeFileSync.
  destruct (lookup_entry (entries (wfs w)) (dirname (_getCacheFilePath (rootDir c) text v)))
    as [[d|]|]; try (intros H; discriminate H).
  destruct (lookup_entry (entries (wfs w)) (_getCacheFilePath (rootDir c) text v)) as [[d|]|];
    try (intros H; discriminate H);
    (intros H; injection H as <- <-; unfold existsSync; cbn [wfs entries requests];
     rewrite lookup_set_entry_same; split; [reflexivity|split; reflexivity]).
Qed.

Lemma validate_named (c : tts) (text v p : jsstr) :
  v <> [] -> isAvailable c = true -> object_keys (voices_or_empty c) <> [] ->
  _convertNumbersToEnglish text v = Some p ->
  _validateAndPrepare c text v = inr (p, _getCacheFilePath (rootDir c) p v, v).
Proof.
  intros Hv Ha Hk Hp. unfold _validateAndPrepare. rewrite Ha. cbn [negb].
  destruct (object_keys (voices_or_empty c)) as [|k ks]; [congruence|].
  cbn [List.length Nat.eqb]. rewrite (jsstr_eqb_neq _ _ Hv). cbn [andb].
  rewrite Hp. reflexivity.
Qed.

Lemma validate_named_none (c : tts) (text v : jsstr) :
  v <> [] -> isAvailable c = true -> object_keys (voices_or_empty c) <> [] ->
  _convertNumbersToEnglish text v = None ->
  _validateAndPrepare c text v = inl EStackOverflow.
Proof.
  intros Hv Ha Hk Hp. unfold _validateAndPrepare. rewrite Ha. cbn [negb].
  destruct (object_keys (voices_or_empty c)) as [|k ks]; [congruence|].
  cbn [List.length Nat.eqb]. rewrite (jsstr_eqb_neq _ _ Hv). cbn [andb].
  rewrite Hp. reflexivity.
Qed.

Lemma validate_named_inv (c : tts) (text v p path v' : jsstr) :
  v <> [] -> _validateAndPrepare c text v = inr (p, path, v') ->
  _convertNumbersToEnglish text v = Some p /\ v' = v.
Proof.
  intros Hv. unfold _validateAndPrepare.
  destruct (negb (isAvailable c)); [discriminate|].
  destruct (List.length _ =? 0)%nat; [discriminate|].
  rewrite (jsstr_eqb_neq _ _ Hv). cbn [andb].
  destruct (_convertNumbersToEnglish text v); [|discriminate].
  intros H. injection H as <- _ <-. split; reflexivity.
Qed.

(** for a voice given by a non-empty name, [hasCachedAudio] checks the
    very file [generateAudio] produces: after [generateAudio] resolves, the
    file it resolved to is the one [hasCachedAudio] finds; when
    [hasCachedAudio] is true on an available client with voices,
    [generateAudio] resolves to that file without any request or write;
    and when the text normalization throws, [hasCachedAudio] throws too
    and [generateAudio] rejects without touching the world. *)
Theorem hasCachedAudio_matches_generateAudio (c : tts) (text v : jsstr)
  (resp : response) (w : world) (Hv : v <> []) :
  (forall r w', generateAudio c text (Some v) resp w = (Resolved r, w') ->
     exists p, _convertNumbersToEnglish text v = Some p /\
       r = _getCacheFilePath (rootDir c) p v /\
       hasCachedAudio c (wfs w') text (Some v) = Some true) /\
  (isAvailable c = true -> object_keys (voices_or_empty c) <> [] ->
   hasCachedAudio c (wfs w) text (Some v) = Some true ->
   exists p, _convertNumbersToEnglish text v = Some p /\
     generateAudio c text (Some v) resp w = (Resolved (_getCacheFilePath (rootDir c) p v), w)) /\
  (isAvailable c = true -> object_keys (voices_or_empty c) <> [] ->
   hasCachedAudio c (wfs w) text (Some v) = None ->
   generateAudio c text (Some v) resp w = (Rejected EStackOverflow, w)).
Proof.
  split; [|split].
  - intros r w'. unfold generateAudio, hasCachedAudio. cbn [voice_arg].
    destruct (_validateAndPrepare c text v) as [e|[[p path] v']] eqn:Hp; [discriminate|].
    destruct (validate_named_inv _ _ _ _ _ _ Hv Hp) as [Hc ->].
    destruct (validateAndPrepare_inv _ _ _ _ _ _ Hp) as [_ ->].
    destruct (existsSync (wfs w) _) eqn:He.
    + intros Hg. injection Hg as <- <-. exists p. rewrite Hc.
      split; [reflexivity|split; [reflexivity|rewrite He; reflexivity]].
    + destruct (_fetchAudioFromAPI c _ v resp w) as [[x|e] w''] eqn:Hf; [|discriminate].
      intros Hg. injection Hg as <- <-. exists p. rewrite Hc.
      apply fetch_resolved in Hf as (-> & Hx & _).
      split; [reflexivity|split; [reflexivity|rewrite Hx; reflexivity]].
  - intros Ha Hk Hc. unfold hasCachedAudio in Hc. cbn [voice_arg] in Hc.
    destruct (_convertNumbersToEnglish text v) as [p|] eqn:Hp; [|discriminate].
    exists p. split; [reflexivity|].
    unfold generateAudio. cbn [voice_arg].
    rewrite (validate_named c text v p Hv Ha Hk Hp).
    injection Hc as Hc. rewrite Hc. reflexivity.
  - intros Ha Hk Hc. unfold hasCachedAudio in Hc. cbn [voice_arg] in Hc.
    destruct (_convertNumbersToEnglish text v) as [p|] eqn:Hp; [discriminate|].
    unfold generateAudio. cbn [voice_arg].
    rewrite (validate_named_none c text v Hv Ha Hk Hp). reflexivity.
Qed.

Lemma hasCachedAudio_matches_generateAudio_witness :
  js "Kamisato" <> [] /\
  hasCachedAudio demo_tts
    (wfs (snd (generateAudio demo_tts (js "hi") (Some (js "Kamisato"))
                 (Answer 200 (js "ERR")) demo_world)))
    (js "hi") (Some (js "Kamisato")) = Some true.
Proof.
  split; [discriminate|].
  destruct (proj1 (hasCachedAudio_matches_generateAudio demo_tts (js "hi") (js "Kamisato")
                     (Answer 200 (js "ERR")) demo_world ltac:(discriminate))
              (js "/mods/guide/tts_cache/Kamisato/hi.mp3")
              (snd (generateAudio demo_tts (js "hi") (Some (js "Kamisato"))
                      (Answer 200 (js "ERR")) demo_world))
              ltac:(vm_compute; reflexivity)) as (p & _ & _ & H).
  exact H.
Defined.

(** [speak] has the disk and network effects of [generateAudio] and
    plays only audio that was already cached: it hands a file to
    [playAudio] only when [generateAudio] would find it on disk, without a
    request; a file it has to fetch is written to the cache but not
    played. *)
Theorem speak_plays_only_cached (c : tts) (text : jsstr) (vo : option jsstr)
  (resp : response) (w : world) :
  snd (speak c text vo resp w) = snd (generateAudio c text vo resp w) /\
  (forall p, fst (speak c text vo resp w) = SpeakPlay p ->
     existsSync (wfs w) p = true /\ generateAudio c text vo resp w = (Resolved p, w)) /\
  (fst (speak c text vo resp w) = SpeakFetched ->
     exists p, existsSync (wfs w) p = false /\
       generateAudio c text vo resp w = (Resolved p, snd (speak c text vo resp w)) /\
       existsSync (wfs (snd (speak c text vo resp w))) p = true /\
       requests (snd (speak c text vo resp w)) = S (requests w)).
Proof.
  unfold speak, generateAudio.
  destruct (_validateAndPrepare c text (voice_arg c vo)) as [e|[[p path] v']] eqn:Hp.
  - split; [reflexivity|split; [discriminate|discriminate]].
  - destruct (validateAndPrepare_inv _ _ _ _ _ _ Hp) as [_ Hpath].
    destruct (existsSync (wfs w) path) eqn:He.
    + split; [reflexivity|split; [|discriminate]].
      intros q H. injection H as <-. split; [exact He|reflexivity].
    + destruct (_fetchAudioFromAPI c p v' resp w) as [[x|e] w'] eqn:Hf.
      * split; [reflexivity|split; [discriminate|intros _]].
        apply fetch_resolved in Hf as (-> & Hx & Hr).
        exists path. cbn [fst snd]. rewrite Hpath in He |- *.
        split; [exact He|split; [reflexivity|split; [exact Hx|exact Hr]]].
      * split; [reflexivity|split; discriminate].
Qed.

(** ** The cache directories *)

Lemma lookup_set_entry_other (es : list (jsstr * node)) (p q : jsstr) (n : node) :
  p <> q -> lookup_entry (set_entry es q n) p = lookup_entry es p.
Proof.
  intros Hpq. induction es as [|[r m] es IH]; simpl.
  - rewrite (jsstr_eqb_neq _ _ Hpq). reflexivity.
  - destruct (jsstr_eqb q r) eqn:E1; simpl.
    + apply jsstr_eqb_true in E1. subst r. rewrite (jsstr_eqb_neq _ _ Hpq). reflexivity.
    + destruct (jsstr_eqb p r); [reflexivity|exact IH].
Qed.

Lemma fs_grows_refl (f : fsys) : fs_grows f f.
Proof. split; auto. Qed.

Lemma fs_grows_trans (f g h : fsys) : fs_grows f g -> fs_grows g h -> fs_grows f h.
Proof. intros [A B] [C D]. split; auto. Qed.

Lemma fs_grows_set_dir (g : fsys) (p : jsstr) :
  lookup_entry (entries g) p = None ->
  fs_grows g (mkFs (set_entry (entries g) p NDir) (locked g)).
Proof.
  intros Hn. split; cbn [entries].
  - intros q Hq. destruct (list_eq_dec Z.eq_dec q p) as [->|Hne]; [congruence|].
    rewrite lookup_set_entry_other by exact Hne. exact Hq.
  - intros q d Hq. destruct (list_eq_dec Z.eq_dec q p) as [->|Hne].
    + rewrite lookup_set_entry_same in Hq. discriminate.
    + rewrite lookup_set_entry_other in Hq by exact Hne. exact Hq.
Qed.

Lemma mkdir_fold_none (segs : list jsstr) (ks : list nat) :
  fold_left (mkdir_step segs) ks None = None.
Proof. induction ks as [|k ks IH]; [reflexivity|exact IH]. Qed.

Lemma mkdir_fold_grows (segs : list jsstr) (ks : list nat) (g g' : fsys) :
  fold_left (mkdir_step segs) ks (Some g) = Some g' -> fs_grows g g'.
Proof.
  revert g. induction ks as [|k ks IH]; intros g H.
  - injection H as <-. apply fs_grows_refl.
  - cbn [fold_left] in H. unfold mkdir_step at 2 in H.
    destruct (lookup_entry (entries g) (47 :: join_sep (firstn k segs))) as [[d|]|] eqn:E.
    + rewrite mkdir_fold_none in H. discriminate.
    + exact (IH g H).
    + eapply fs_grows_trans; [apply fs_grows_set_dir; exact E|exact (IH _ H)].
Qed.

Lemma no_files_above_grows (f g : fsys) (L : list jsstr) :
  fs_grows f g -> no_files_above f L -> no_files_above g L.
Proof. intros [_ B] H k d Hk E. exact (H k d Hk (B _ _ E)). Qed.

Lemma mkdir_fold_creates (L : list jsstr) (ks : list nat) (g : fsys) :
  no_files_above g L -> (forall k, In k ks -> (1 <= k)%nat) ->
  exists g', fold_left (mkdir_step L) ks (Some g) = Some g' /\
    forall k, In k ks -> lookup_entry (entries g') (abs_path (firstn k L)) = Some NDir.
Proof.
  revert g. induction ks as [|k ks IH]; intros g Hg Hks.
  - exists g. split; [reflexivity|intros k []].
  - cbn [fold_left].
    assert (Hstep : exists g1, mkdir_step L (Some g) k = Some g1 /\ fs_grows g g1 /\
              lookup_entry (entries g1) (abs_path (firstn k L)) = Some NDir).
    { unfold mkdir_step. fold (abs_path (firstn k L)).
      destruct (lookup_entry (entries g) (abs_path (firstn k L))) as [[d|]|] eqn:E.
      - exfalso. exact (Hg k d (Hks k (or_introl eq_refl)) E).
      - exists g. split; [reflexivity|split; [apply fs_grows_refl|exact E]].
      - eexists. split; [reflexivity|split; [apply fs_grows_set_dir; exact E|]].
        cbn [entries]. apply lookup_set_entry_same. }
    destruct Hstep as (g1 & -> & Hgrow & Hk).
    destruct (IH g1 (no_files_above_grows _ _ _ Hgrow Hg) (fun k' H => Hks k' (or_intror H)))
      as (g' & Hf & Hall).
    exists g'. split; [exact Hf|].
    intros k' [<-|Hin]; [|exact (Hall k' Hin)].
    exact (proj1 (mkdir_fold_grows _ _ _ _ Hf) _ Hk).
Qed.

Lemma mkdirSync_recursive_eq (f : fsys) (dir : jsstr) :
  mkdirSync_recursive f dir =
  fold_left (mkdir_step (filter (fun s => negb (jsstr_eqb s [])) (split_sep dir)))
            (seq 1 (List.length (filter (fun s => negb (jsstr_eqb s [])) (split_sep dir))))
            (Some f).
Proof. reflexivity. Qed.

Lemma split_abs_path (L : list jsstr) :
  L <> [] -> Forall plain_seg L ->
  filter (fun s => negb (jsstr_eqb s [])) (split_sep (abs_path L)) = L.
Proof.
  intros Hne HL. unfold abs_path. cbn [split_sep Z.eqb Pos.eqb].
  rewrite split_join by (exact Hne || (eapply Forall_impl; [|exact HL]; intros x Hx; apply Hx)).
  cbn [filter]. rewrite jsstr_eqb_refl. cbn [negb].
  induction HL as [|x L Hx HL IH]; [reflexivity|].
  cbn [filter]. rewrite (jsstr_eqb_neq _ _ (proj1 Hx)). cbn [negb].
  destruct L as [|y L]; [reflexivity|]. rewrite IH by discriminate. reflexivity.
Qed.

Lemma ensureDir_grows (f : fsys) (dir : jsstr) : fs_grows f (_ensureDir f dir).
Proof.
  unfold _ensureDir. destruct (existsSync f dir); [apply fs_grows_refl|].
  destruct (mkdirSync_recursive f dir) as [g|] eqn:E; [|apply fs_grows_refl].
  rewrite mkdirSync_recursive_eq in E. exact (mkdir_fold_grows _ _ _ _ E).
Qed.

Lemma ensureDir_creates (f : fsys) (L : list jsstr) :
  L <> [] -> Forall plain_seg L -> no_files_above f L ->
  lookup_entry (entries (_ensureDir f (abs_path L))) (abs_path L) = Some NDir.
Proof.
  intros Hne HL Hf. unfold _ensureDir, existsSync.
  assert (Hlen : (1 <= List.length L)%nat) by (destruct L; [congruence|simpl; lia]).
  destruct (lookup_entry (entries f) (abs_path L)) as [[d|]|] eqn:E.
  - exfalso. apply (Hf (List.length L) d Hlen). rewrite firstn_all. exact E.
  - exact E.
  - rewrite mkdirSync_recursive_eq, split_abs_path by assumption.
    destruct (mkdir_fold_creates L (seq 1 (List.length L)) f Hf)
      as (g' & -> & Hall).
    { intros k Hk. apply in_seq in Hk. lia. }
    rewrite <- (firstn_all L). apply Hall. apply in_seq. lia.
Qed.

Lemma drop_to_sep_app (a b : jsstr) : ~ In 47 a -> drop_to_sep (a ++ 47 :: b) = b.
Proof.
  induction a as [|c a IH]; intros H; [reflexivity|].
  cbn [app drop_to_sep]. rewrite (proj2 (Z.eqb_neq c 47)) by (intros E; apply H; left; exact E).
  apply IH. intros H'. apply H. right. exact H'.
Qed.

Lemma dirname_abs_snoc (L : list jsstr) (x : jsstr) :
  L <> [] -> ~ In 47 x -> dirname (abs_path (L ++ [x])) = abs_path L.
Proof.
  intros Hne Hx. unfold dirname, abs_path. rewrite join_sep_snoc by exact Hne.
  replace (rev (47 :: join_sep L ++ [47] ++ x)) with (rev x ++ 47 :: (rev (join_sep L) ++ [47])).
  - rewrite drop_to_sep_app by (rewrite <- in_rev; exact Hx).
    rewrite rev_app_distr, rev_involutive. reflexivity.
  - cbn [rev]. rewrite !rev_app_distr. cbn [rev app]. rewrite <- !app_assoc. reflexivity.
Qed.

Lemma cache_file_path_abs (segs : list jsstr) (text name : jsstr) :
  Forall plain_seg segs -> plain_seg name ->
  _getCacheFilePath (abs_path segs) text name =
    abs_path ((segs ++ [cacheDir; name]) ++ [_textToFileName text ++ js ".mp3"]).
Proof.
  intros Hsegs Hname. unfold _getCacheFilePath.
  rewrite actual_cache_path_abs by exact Hsegs.
  rewrite path_join_abs.
  - rewrite <- !app_assoc. reflexivity.
  - apply Forall_app. split; [exact Hsegs|constructor; [exact plain_cacheDir|constructor]].
  - constructor; [exact Hname|constructor; [apply plain_seg_mp3|constructor]].
  - discriminate.
Qed.

(** after [setVoice(name, id)] with a name that is one path segment
    (and not [__proto__]), [voices[name]] is [id], every other entry of
    [voices] is unchanged, and the voice's cache directory exists, so the
    directory of every cache file of that voice exists; this holds for a
    normalized absolute root when no ancestor of that directory is a
    regular file. *)
Theorem setVoice_registers_voice (c : tts) (f : fsys) (segs : list jsstr) (name id : jsstr) :
  rootDir c = abs_path segs -> Forall plain_seg segs -> plain_seg name ->
  name <> js "__proto__" -> no_files_above f (segs ++ [cacheDir; name]) ->
  obj_get (voices_or_empty (fst (setVoice c f name id))) name = JStr id /\
  (forall k, k <> name ->
     own_get (voices_or_empty (fst (setVoice c f name id))) k = own_get (voices_or_empty c) k) /\
  lookup_entry (entries (snd (setVoice c f name id))) (voice_cache_dir segs name) = Some NDir /\
  (forall text,
     lookup_entry (entries (snd (setVoice c f name id)))
       (dirname (_getCacheFilePath (rootDir (fst (setVoice c f name id))) text name)) = Some NDir).
Proof.
  intros Hroot Hsegs Hname Hproto Hf.
  assert (Hdir : lookup_entry (entries (snd (setVoice c f name id))) (voice_cache_dir segs name)
                 = Some NDir).
  { unfold setVoice. cbn [snd]. rewrite Hroot, voice_cache_dir_eq by assumption.
    apply ensureDir_creates; [destruct segs; discriminate| |exact Hf].
    apply Forall_app. split; [exact Hsegs|].
    constructor; [exact plain_cacheDir|constructor; [exact Hname|constructor]]. }
  assert (Hfile : forall text,
            dirname (_getCacheFilePath (rootDir c) text name) = voice_cache_dir segs name).
  { intros text. rewrite Hroot, cache_file_path_abs by assumption.
    apply dirname_abs_snoc; [destruct segs; discriminate|].
    exact (proj1 (proj2 (plain_seg_mp3 text))). }
  split; [|split; [|split; [exact Hdir|]]].
  - unfold voices_or_empty at 1, setVoice, with_voices. cbn [fst cfg voices].
    unfold obj_get. rewrite own_get_obj_set, jsstr_eqb_refl by exact Hproto. reflexivity.
  - intros k Hk. unfold voices_or_empty at 1, setVoice, with_voices. cbn [fst cfg voices].
    rewrite own_get_obj_set, (jsstr_eqb_neq _ _ Hk) by exact Hproto. reflexivity.
  - intros text. change (rootDir (fst (setVoice c f name id))) with (rootDir c).
    rewrite Hfile. exact Hdir.
Qed.

Lemma setVoice_registers_voice_witness :
  rootDir demo_tts = abs_path [js "mods"; js "guide"] /\
  lookup_entry (entries (snd (setVoice demo_tts (mkFs [] []) (js "Bob") (js "id2"))))
    (voice_cache_dir [js "mods"; js "guide"] (js "Bob")) = Some NDir.
Proof.
  assert (Hr : rootDir demo_tts = abs_path [js "mods"; js "guide"]) by (vm_compute; reflexivity).
  split; [exact Hr|].
  refine (proj1 (proj2 (proj2 (setVoice_registers_voice demo_tts (mkFs [] [])
            [js "mods"; js "guide"] (js "Bob") (js "id2") Hr _ _ _ _)))).
  - repeat constructor; apply plain_segb_plain; vm_compute; reflexivity.
  - apply plain_segb_plain; vm_compute; reflexivity.
  - discriminate.
  - intros k d _ E. cbn in E. discriminate E.
Defined.

Lemma ensureCacheDirs_fold (cp : jsstr) (ks : list jsstr) (g : fsys) :
  fs_grows g (fold_left (fun g voiceName => _ensureDir g (path_join [cp; voiceName])) ks g).
Proof.
  revert g. induction ks as [|k ks IH]; intros g; [apply fs_grows_refl|].
  cbn [fold_left]. eapply fs_grows_trans; [apply ensureDir_grows|apply IH].
Qed.

(** [_ensureCacheDirs] (run by the constructor and by [updateSettings]
    when the voices change) leaves the cache root and the directory of
    every configured voice whose name is one path segment in place, for a
    normalized absolute root when no ancestor of these directories is a
    regular file; it never removes a directory nor creates a regular file. *)
Theorem ensureCacheDirs_creates_dirs (c : tts) (f : fsys) (segs : list jsstr) :
  rootDir c = abs_path segs -> Forall plain_seg segs ->
  no_files_above f (segs ++ [cacheDir]) ->
  fs_grows f (_ensureCacheDirs c f) /\
  lookup_entry (entries (_ensureCacheDirs c f)) (abs_path (segs ++ [cacheDir])) = Some NDir /\
  (forall name, In name (object_keys (voices_or_empty c)) -> plain_seg name ->
     no_files_above f (segs ++ [cacheDir; name]) ->
     lookup_entry (entries (_ensureCacheDirs c f)) (voice_cache_dir segs name) = Some NDir).
Proof.
  intros Hroot Hsegs Hf.
  assert (HL : Forall plain_seg (segs ++ [cacheDir])).
  { apply Forall_app. split; [exact Hsegs|constructor; [exact plain_cacheDir|constructor]]. }
  assert (HLne : segs ++ [cacheDir] <> []) by (destruct segs; discriminate).
  unfold _ensureCacheDirs. rewrite Hroot, actual_cache_path_abs by exact Hsegs.
  set (f1 := _ensureDir f (abs_path (segs ++ [cacheDir]))).
  assert (G1 : fs_grows f f1) by apply ensureDir_grows.
  split; [exact (fs_grows_trans _ _ _ G1 (ensureCacheDirs_fold _ _ _))|split].
  - apply (proj1 (ensureCacheDirs_fold _ _ f1)).
    apply ensureDir_creates; assumption.
  - intros name Hin Hname Hfn.
    assert (Hp : path_join [abs_path (segs ++ [cacheDir]); name] = voice_cache_dir segs name).
    { unfold voice_cache_dir. rewrite path_join_abs.
      - rewrite <- app_assoc. reflexivity.
      - exact HL.
      - constructor; [exact Hname|constructor].
      - discriminate. }
    assert (Hvd : Forall plain_seg (segs ++ [cacheDir; name])).
    { apply Forall_app. split; [exact Hsegs|].
      constructor; [exact plain_cacheDir|constructor; [exact Hname|constructor]]. }
    generalize (no_files_above_grows _ _ _ G1 Hfn). generalize f1.
    clear f1 G1. induction (object_keys (voices_or_empty c)) as [|k ks IH];
      intros g Hg; [destruct Hin|].
    cbn [fold_left]. destruct Hin as [<-|Hin].
    + apply (proj1 (ensureCacheDirs_fold _ _ _)).
      rewrite Hp. apply ensureDir_creates; [destruct segs; discriminate|exact Hvd|exact Hg].
    + apply (IH Hin). exact (no_files_above_grows _ _ _ (ensureDir_grows _ _) Hg).
Qed.

Lemma ensureCacheDirs_creates_dirs_witness :
  rootDir demo_tts = abs_path [js "mods"; js "guide"] /\
  lookup_entry (entries (_ensureCacheDirs demo_tts (mkFs [] [])))
    (abs_path ([js "mods"; js "guide"] ++ [cacheDir])) = Some NDir.
Proof.
  assert (Hr : rootDir demo_tts = abs_path [js "mods"; js "guide"]) by (vm_compute; reflexivity).
  split; [exact Hr|].
  refine (proj1 (proj2 (ensureCacheDirs_creates_dirs demo_tts (mkFs [] [])
            [js "mods"; js "guide"] Hr _ _))).
  - repeat constructor; apply plain_segb_plain; vm_compute; reflexivity.
  - intros k d _ E. cbn in E. discriminate E.
Defined.


Import AudioPlayer.

(** ** The audio player after an idle timeout *)


(** C6: the queue is not kept one job at a time.  After the idle timeout
    has sent QUIT to worker 0, b.mp3 and c.mp3 are queued and b.mp3 starts
    on a new worker 1; when worker 0 then exits, its [close] handler
    rejects the pending b.mp3, the drain loop moves on and submits c.mp3
    to a third worker while worker 1 still plays b.mp3: two busy intervals
    overlap. *)
Theorem idle_quit_race_overlaps :
  option_map (fun s => map busy (workers s))
    (run all_present init (idle_race_prefix ++ [EvRead 2])) =
    Some [None; Some (js "b.mp3"); Some (js "c.mp3")] /\
  option_map busy_count (run all_present init (idle_race_prefix ++ [EvRead 2])) = Some 2%nat /\
  option_map settled (run all_present init (idle_race_prefix ++ [EvRead 2])) =
    Some [(js "a.mp3", true); (js "b.mp3", false)].
Proof. vm_compute. repeat split. Qed.

(** C7: the idle timer is armed when a.mp3 completes and cleared by the
    next [play]; when it fires, QUIT is written and the handle released.
    But a request made before the old worker has exited starts worker 1
    and then has its job rejected by worker 0's [close] handler, which
    also drops the handle of worker 1: b.mp3 is still played by worker 1,
    its DONE finds no pending job, and worker 1 is never told to quit. *)
Theorem idle_quit_race_rejects_next_job :
  option_map timerArmed
    (run all_present init [EvEnqueue (js "a.mp3"); EvRead 0; EvDone 0]) = Some true /\
  option_map (fun s => (timerArmed s, process s, map inbox (workers s)))
    (run all_present init [EvEnqueue (js "a.mp3"); EvRead 0; EvDone 0; EvTimer]) =
    Some (false, None, [[LQuit]]) /\
  option_map (fun s => (settled s, process s, map busy (workers s), map running (workers s)))
    (run all_present init
       [EvEnqueue (js "a.mp3"); EvRead 0; EvDone 0; EvTimer;
        EvEnqueue (js "b.mp3"); EvRead 1; EvRead 0; EvClose 0]) =
    Some ([(js "a.mp3", true); (js "b.mp3", false)], None,
          [None; Some (js "b.mp3")], [false; true]) /\
  option_map (fun s => (settled s, process s, map running (workers s)))
    (run all_present init
       [EvEnqueue (js "a.mp3"); EvRead 0; EvDone 0; EvTimer;
        EvEnqueue (js "b.mp3"); EvRead 1; EvRead 0; EvClose 0; EvDone 1]) =
    Some ([(js "a.mp3", true); (js "b.mp3", false)], None, [false; true]).
Proof. vm_compute. repeat split. Qed.
